(** * Order/corridor selection as an n-ary CSP: backtracking enumeration

    Shallow embedding of [selecao_pedidos_otima.py].  The script builds a
    constraint model ([NaryCSP] over a dict of domains and a list of
    [Constraint]s), enumerates every solution with the generator
    [backtracking], and keeps the solution with the best productivity
    ratio.

    Python objects that are shared by reference (the assignment dicts, and
    in particular the mutable default argument [assignment={}]) live in an
    explicit store; the generator is drained by [list(...)], so its yields
    are collected in order. *)

From stdpp Require Import gmap strings list sorting pretty.
From Stdlib Require Import ZArith QArith.

Open Scope Z_scope.

(** ** Python outcomes and the store monad *)

Inductive exn : Type :=
  | ValueError     (* min() of an empty sequence *)
  | KeyError       (* d[k] with k absent *)
  | IndexError     (* l[i] out of range *)
  | TypeError      (* subscripting None *)
  | BadReference.  (* a location outside the store: no Python program reaches it *)

Inductive outcome (A : Type) : Type :=
  | Ok (a : A)
  | Raise (e : exn)
  | OutOfFuel.
Arguments Ok {A} a.
Arguments Raise {A} e.
Arguments OutOfFuel {A}.

#[global] Instance outcome_ret : MRet outcome := λ A a, Ok a.
#[global] Instance outcome_bind : MBind outcome := λ A B f m,
  match m with
  | Ok a => f a
  | Raise e => Raise e
  | OutOfFuel => OutOfFuel
  end.

(** An assignment is a Python dict from variable names to values. *)
Abbreviation assignment := (gmap string Z).

(** Locations are indices into the heap; [dict.copy()] allocates at the end. *)
Abbreviation loc := nat.

(** [writes] logs every [d[k] = v] executed, with the location written. *)
Record store : Type := Store {
  heap : list assignment;
  writes : list (nat * string * Z)
}.

Definition Py (A : Type) : Type := store → outcome A * store.

#[global] Instance Py_ret : MRet Py := λ A a σ, (Ok a, σ).
#[global] Instance Py_bind : MBind Py := λ A B f m σ,
  match m σ with
  | (Ok a, σ') => f a σ'
  | (Raise e, σ') => (Raise e, σ')
  | (OutOfFuel, σ') => (OutOfFuel, σ')
  end.

Definition raise {A} (e : exn) : Py A := λ σ, (Raise e, σ).
Definition out_of_fuel {A} : Py A := λ σ, (OutOfFuel, σ).

(** Reading the dict behind a reference. *)
Definition deref (l : loc) : Py assignment := λ σ,
  match heap σ !! l with
  | Some a => (Ok a, σ)
  | None => (Raise BadReference, σ)
  end.

(** [d.copy()]: a new dict object with the same bindings. *)
Definition dict_copy (l : loc) : Py loc := λ σ,
  match heap σ !! l with
  | Some a => (Ok (length (heap σ)), Store (heap σ ++ [a]) (writes σ))
  | None => (Raise BadReference, σ)
  end.

(** [d[k] = v]: in-place update of the dict object at [l]. *)
Definition dict_setitem (l : loc) (k : string) (v : Z) : Py unit := λ σ,
  match heap σ !! l with
  | Some a => (Ok (), Store (<[l := <[k := v]> a]> (heap σ)) (writes σ ++ [(l, k, v)]))
  | None => (Raise BadReference, σ)
  end.

(** A [for] loop whose body yields: the yields of the iterations, in order. *)
Fixpoint for_yield {A B} (xs : list A) (body : A → Py (list B)) : Py (list B) :=
  match xs with
  | [] => mret []
  | x :: xs' => ys ← body x; zs ← for_yield xs' body; mret (ys ++ zs)
  end.

(** ** Python builtins used by the script *)

Definition py_sum (l : list Z) : Z := foldr Z.add 0 l.

(** [sorted(s)] for a set of integers. *)
Definition sorted (s : gset Z) : list Z := merge_sort Z.le (elements s).

(** [min(l, key=key)]: the first element whose key is minimal; the current
    candidate is replaced only by a strictly smaller key. *)
Definition py_min_from {A} (key : A → nat) (x : A) (l : list A) : A :=
  fold_left (λ best y, if (key y <? key best)%nat then y else best) l x.

Definition py_min {A} (key : A → nat) (l : list A) : option A :=
  match l with
  | [] => None
  | x :: l' => Some (py_min_from key x l')
  end.

(** ** The constraint model *)

(** [Constraint(scope, condition)]. *)
Record Constraint : Type := {
  scope : list string;
  condition : list Z → bool
}.

(** [NaryCSP(domains, constraints)]: [domains] is a dict (insertion-ordered,
    keys unique) from variable names to sets of values. *)
Record NaryCSP : Type := {
  domains : list (string * gset Z);
  constraints : list Constraint
}.

(** Iterating over the dict [csp.domains] gives its keys in insertion order. *)
Definition variables (csp : NaryCSP) : list string := (domains csp).*1.

(** [csp.domains[v]]. *)
Fixpoint dict_get {V} (d : list (string * V)) (k : string) : option V :=
  match d with
  | [] => None
  | (k', v) :: d' => if decide (k' = k) then Some v else dict_get d' k
  end.

(** [len(csp.domains[v])]; it is only applied to keys of [csp.domains]. *)
Definition domain_size (csp : NaryCSP) (v : string) : nat :=
  match dict_get (domains csp) v with
  | Some d => size d
  | None => 0
  end.

(** What Python's dict type guarantees and, following the fail-fast rule for
    malformed models, what a constructed model guarantees: keys are unique and
    every scope only names declared variables. *)
Definition dict_wf (csp : NaryCSP) : Prop := NoDup (variables csp).
Definition scopes_declared (csp : NaryCSP) : Prop :=
  ∀ c, c ∈ constraints csp → ∀ v, v ∈ scope c → v ∈ variables csp.

(** The values of a scope under an assignment, in scope order; [None] when
    some variable of the scope is not bound. *)
Definition scope_values (a : assignment) (sc : list string) : option (list Z) :=
  mapM (λ v, a !! v) sc.

(** Modelled from the spec: the class [NaryCSP] of module [csp] is imported,
    not part of the script.  [consistent] is the model's single query: every
    constraint whose scope is fully covered by the assignment is evaluated on
    the bound values in scope order and must hold; constraints whose scope is
    not fully covered are skipped. *)
Definition consistent (csp : NaryCSP) (a : assignment) : bool :=
  forallb (λ c, match scope_values a (scope c) with
                | Some vals => condition c vals
                | None => true
                end) (constraints csp).

(** ** Backtracking search *)

(** [[v for v in csp.domains if v not in assignment]]. *)
Definition unassigned_variables (csp : NaryCSP) (a : assignment) : list string :=
  filter (λ v, a !! v = None) (variables csp).

(** The generator [backtracking(csp, assignment)], drained.  [assignment] is a
    reference; the leaf yields that very reference. *)
Fixpoint backtracking_fuel (fuel : nat) (csp : NaryCSP) (assignment : loc) : Py (list loc) :=
  match fuel with
  | O => out_of_fuel
  | S fuel' =>
      a ← deref assignment;
      if decide (size a = length (domains csp)) then mret [assignment]
      else
        let unassigned := unassigned_variables csp a in
        match py_min (domain_size csp) unassigned with
        | None => raise ValueError
        | Some var =>
            match dict_get (domains csp) var with
            | None => raise KeyError
            | Some dom_var =>
                for_yield (sorted dom_var) (λ value,
                  new_assignment ← dict_copy assignment;
                  dict_setitem new_assignment var value;;
                  a' ← deref new_assignment;
                  if consistent csp a'
                  then backtracking_fuel fuel' csp new_assignment
                  else mret [])
            end
        end
  end.

(** Each call binds one more variable, so the depth is bounded by the number
    of variables. *)
Definition backtracking (csp : NaryCSP) (assignment : loc) : Py (list loc) :=
  backtracking_fuel (S (length (domains csp))) csp assignment.

(** The default argument [assignment={}] is one dict object, created when the
    [def] statement runs. *)
Definition default_assignment : loc := 0%nat.
Definition initial_store : store := Store [∅] [].

(** [list(backtracking(csp))], read back as the bindings of each solution. *)
Definition list_backtracking (csp : NaryCSP) : Py (list assignment) :=
  sols ← backtracking csp default_assignment; mapM deref sols.

(** The same search on values instead of references. *)
Fixpoint concat_outcomes {A B} (xs : list A) (body : A → outcome (list B)) : outcome (list B) :=
  match xs with
  | [] => Ok []
  | x :: xs' => ys ← body x; zs ← concat_outcomes xs' body; mret (ys ++ zs)
  end.

Fixpoint solve (fuel : nat) (csp : NaryCSP) (a : assignment) : outcome (list assignment) :=
  match fuel with
  | O => OutOfFuel
  | S fuel' =>
      if decide (size a = length (domains csp)) then Ok [a]
      else
        let unassigned := unassigned_variables csp a in
        match py_min (domain_size csp) unassigned with
        | None => Raise ValueError
        | Some var =>
            match dict_get (domains csp) var with
            | None => Raise KeyError
            | Some dom_var =>
                concat_outcomes (sorted dom_var) (λ value,
                  let a' := <[var := value]> a in
                  if consistent csp a' then solve fuel' csp a' else Ok [])
            end
        end
  end.

(** Brute force: every combination of one value per variable, filtered by the
    constraint predicates. *)
Fixpoint all_assignments (doms : list (string * gset Z)) : list assignment :=
  match doms with
  | [] => [∅]
  | (v, d) :: doms' =>
      a ← all_assignments doms'; x ← sorted d; [<[v := x]> a]
  end.

Definition holds (c : Constraint) (a : assignment) : bool :=
  match scope_values a (scope c) with
  | Some vals => condition c vals
  | None => false
  end.

Definition satisfies (csp : NaryCSP) (a : assignment) : bool :=
  forallb (λ c, holds c a) (constraints csp).

Definition brute_force (csp : NaryCSP) : list assignment :=
  filter (λ a, satisfies csp a = true) (all_assignments (domains csp)).

(** ** The problem instance of the script *)

Definition orders : list (list Z) :=
  [ [3; 0; 1; 0; 0];
    [0; 1; 0; 1; 0];
    [0; 0; 1; 0; 2];
    [1; 0; 2; 1; 1];
    [0; 1; 0; 0; 0] ].

Definition order_totals : list Z := py_sum <$> orders.

Definition corridors : list (list Z) :=
  [ [2; 1; 1; 0; 1];
    [2; 1; 2; 0; 1];
    [0; 2; 0; 1; 2];
    [2; 1; 0; 1; 1];
    [0; 1; 2; 1; 2] ].

Definition LB : Z := 5.
Definition UB : Z := 12.

Definition Pedido (o : nat) : string := "Pedido" +:+ pretty (o + 1)%nat.
Definition Corredor (a : nat) : string := "Corredor" +:+ pretty (a + 1)%nat.

Definition instance_domains : list (string * gset Z) :=
  ((λ o, (Pedido o, ({[0; 1]} : gset Z))) <$> seq 0 (length orders)) ++
  ((λ a, (Corredor a, ({[0; 1]} : gset Z))) <$> seq 0 (length corridors)).

Definition total_demand_constraint (order_vals : list Z) : bool :=
  let total := py_sum ((λ tv, tv.1 * tv.2) <$> zip order_totals order_vals) in
  (LB <=? total) && (total <=? UB).

Definition orders_variables : list string := Pedido <$> seq 0 (length orders).

(** [m[r][c]] and [l[i]] raise [IndexError] out of range. *)
Definition index2 (m : list (list Z)) (r c : nat) : option Z :=
  row ← m !! r; row !! c.

(** The closure returned by [item_constraint_factory(i)]; [None] stands for
    the [IndexError] raised on fewer than five order or corridor values. *)
Definition constraint_func (i : nat) (vals : list Z) : option bool :=
  let order_vals := take 5 vals in
  let corridor_vals := drop 5 vals in
  demand ← mapM (λ o, x ← index2 orders o i; y ← order_vals !! o; Some (x * y)) (seq 0 5);
  capacity ← mapM (λ a, x ← index2 corridors a i; y ← corridor_vals !! a; Some (x * y)) (seq 0 5);
  Some (py_sum demand <=? py_sum capacity).

(** As a [condition]; the scope below has ten variables, where
    [constraint_func] is defined (see [constraint_func_defined]). *)
Definition item_constraint (i : nat) (vals : list Z) : bool :=
  default false (constraint_func i vals).

Definition all_variables : list string :=
  orders_variables ++ (Corredor <$> seq 0 (length corridors)).

Definition instance_constraints : list Constraint :=
  {| scope := orders_variables; condition := total_demand_constraint |} ::
  ((λ j, {| scope := all_variables; condition := item_constraint j |}) <$> seq 0 (length orders)).

Definition csp_instance : NaryCSP :=
  {| domains := instance_domains; constraints := instance_constraints |}.

(** ** Objective and selection of the best wave *)

(** [d[k]] on an assignment dict. *)
Definition getitem (a : assignment) (k : string) : outcome Z :=
  match a !! k with
  | Some v => Ok v
  | None => Raise KeyError
  end.

Fixpoint mapM_outcome {A B} (f : A → outcome B) (l : list A) : outcome (list B) :=
  match l with
  | [] => Ok []
  | x :: l' => y ← f x; ys ← mapM_outcome f l'; mret (y :: ys)
  end.

(** [l[i]] on a list. *)
Definition list_getitem (l : list Z) (i : nat) : outcome Z :=
  match l !! i with
  | Some x => Ok x
  | None => Raise IndexError
  end.

(** [sum(order_totals[o] * sol[f"Pedido{o+1}"] for o in range(len(orders)))]. *)
Definition total_units_of (sol : assignment) : outcome Z :=
  terms ← mapM_outcome (λ o, t ← list_getitem order_totals o;
                             x ← getitem sol (Pedido o);
                             mret (t * x))
                       (seq 0 (length orders));
  mret (py_sum terms).

(** [sum(sol[f"Corredor{a+1}"] for a in range(len(corridors)))]. *)
Definition num_corridors_of (sol : assignment) : outcome Z :=
  terms ← mapM_outcome (λ a, getitem sol (Corredor a)) (seq 0 (length corridors));
  mret (py_sum terms).

(** [objective(solution)].  The quotient is a Python float and [-1] an int;
    both are represented by the rational they denote.  On 0/1 assignments
    numerators are at most 15 and denominators at most 5, where correctly
    rounded division is monotone and injective, so [>=] on the floats is
    [Qle] on the rationals.  Outside that range the float is only the rounded
    quotient, and a quotient beyond the float range raises [OverflowError],
    which the rational does not show: no statement below relies on the value
    of the quotient there. *)
Definition objective (solution : assignment) : outcome Q :=
  total_units ← total_units_of solution;
  num_corridors ← num_corridors_of solution;
  if 0 <? num_corridors
  then mret (inject_Z total_units / inject_Z num_corridors)%Q
  else mret (inject_Z (-1)).

(** The state of the selection loop; [best_solution = None] is Python's
    [None]. *)
Record selection : Type := Selection {
  best_solution : option assignment;
  best_obj : Q;
  best_index : Z
}.

Definition selection_init : selection :=
  Selection None (inject_Z (-1)) (-1).

(** One iteration: [if obj_val >= best_obj: ...]. *)
Definition select_step (s : selection) (idx : Z) (sol : assignment) : outcome selection :=
  obj_val ← objective sol;
  if Qle_bool (best_obj s) obj_val
  then mret (Selection (Some sol) obj_val idx)
  else mret s.

(** [for idx, sol in enumerate(solutions, start=idx): ...]. *)
Fixpoint select_loop (s : selection) (idx : Z) (solutions : list assignment) : outcome selection :=
  match solutions with
  | [] => Ok s
  | sol :: rest => s' ← select_step s idx sol; select_loop s' (idx + 1) rest
  end.

Definition select_best (solutions : list assignment) : outcome selection :=
  select_loop selection_init 1 solutions.

(** The values [print_solution] computes and hands to its format strings,
    field by field.  The formatting itself (the joined names or ['Nenhum'],
    the objective with two decimals) is not part of the record. *)
Record wave_report : Type := WaveReport {
  wave_index : Z;
  orders_selected : list string;
  corridors_selected : list string;
  wave_total_units : Z;
  wave_num_corridors : Z;
  wave_obj : Q
}.

(** [sol[k]] where [sol] may be [None]. *)
Definition subscript (sol : option assignment) (k : string) : outcome Z :=
  match sol with
  | None => Raise TypeError
  | Some a => getitem a k
  end.

(** [[name(i) for i in range(n) if sol[name(i)] == 1]]. *)
Fixpoint selected_names (sol : option assignment) (name : nat → string) (idxs : list nat)
  : outcome (list string) :=
  match idxs with
  | [] => Ok []
  | i :: idxs' =>
      x ← subscript sol (name i);
      rest ← selected_names sol name idxs';
      mret (if decide (x = 1) then name i :: rest else rest)
  end.

(** [objective(sol)] where [sol] may be [None]: its first subscript raises. *)
Definition objective_of (sol : option assignment) : outcome Q :=
  match sol with
  | None => Raise TypeError
  | Some a => objective a
  end.

(** [print_solution(sol, index)]: the values computed, in the order of the
    function body, gathered in the record of what is then formatted and
    printed. *)
Definition print_solution (sol : option assignment) (index : Z) : outcome wave_report :=
  orders_sel ← selected_names sol Pedido (seq 0 (length orders));
  corridors_sel ← selected_names sol Corredor (seq 0 (length corridors));
  terms ← mapM_outcome (λ o, t ← list_getitem order_totals o;
                             x ← subscript sol (Pedido o);
                             mret (t * x))
                       (seq 0 (length orders));
  cterms ← mapM_outcome (λ a, subscript sol (Corredor a)) (seq 0 (length corridors));
  obj ← objective_of sol;
  mret (WaveReport index orders_sel corridors_sel (py_sum terms) (py_sum cterms) obj).

(** The end of the script: the selection loop, then
    [print_solution(best_solution, best_index)].  The solutions are no longer
    written to at this point, so they are taken by value. *)
Definition report_best (solutions : list assignment) : outcome wave_report :=
  s ← select_best solutions;
  print_solution (best_solution s) (best_index s).

(** ** Specification vocabulary *)

(** A complete assignment binds exactly the variables of the model. *)
Definition complete (csp : NaryCSP) (s : assignment) : Prop :=
  ∀ v, is_Some (s !! v) ↔ v ∈ variables csp.

(** Every bound value comes from the domain of its variable. *)
Definition in_domains (csp : NaryCSP) (s : assignment) : Prop :=
  ∀ v x, s !! v = Some x → ∃ D, dict_get (domains csp) v = Some D ∧ x ∈ D.

(** What the search below the partial assignment [a] emits: the complete
    extensions of [a] by domain values; consistency has been checked on every
    extension, but never on [a] itself. *)
Definition solution_from (csp : NaryCSP) (a s : assignment) : Prop :=
  a ⊆ s ∧ complete csp s ∧
  (∀ v x, a !! v = None → s !! v = Some x →
          ∃ D, dict_get (domains csp) v = Some D ∧ x ∈ D) ∧
  (s ≠ a → consistent csp s = true).

(** The locations written by a sequence of logged writes. *)
Definition written (w : list (nat * string * Z)) : list nat := w.*1.*1.

(** [σ'] is reached from [σ] by allocating new dicts and writing only to
    them, once each: every dict of [σ] is still there, unchanged. *)
Definition store_extends (σ σ' : store) : Prop :=
  (∃ ext, heap σ' = heap σ ++ ext) ∧
  (∃ w, writes σ' = writes σ ++ w ∧
        Forall (λ l, (length (heap σ) ≤ l < length (heap σ'))%nat) (written w) ∧
        NoDup (written w)).

(** A run on references agrees with a run on values: same outcome, and each
    yielded reference holds the corresponding solution in the final store. *)
Definition sim_result (σ : store) (r : outcome (list loc) * store)
    (p : outcome (list assignment)) : Prop :=
  store_extends σ r.2 ∧
  match p with
  | Ok sols => ∃ locs, r.1 = Ok locs ∧ Forall2 (λ l s, heap r.2 !! l = Some s) locs sols
  | Raise e => r.1 = Raise e
  | OutOfFuel => r.1 = OutOfFuel
  end.

(** The emitted sequence has no duplicates and, as a set, is the brute-force
    solution set. *)
Definition enumerates_exactly (csp : NaryCSP) : Prop :=
  ∃ L, (list_backtracking csp initial_store).1 = Ok L ∧ NoDup L ∧
       ∀ s, s ∈ L ↔ s ∈ brute_force csp.

(** Every emitted assignment is complete, passes the consistency check, and
    satisfies every constraint on the values of its scope. *)
Definition sound_solution (csp : NaryCSP) (s : assignment) : Prop :=
  complete csp s ∧ consistent csp s = true ∧
  Forall (λ c, ∃ vals, scope_values s (scope c) = Some vals ∧ condition c vals = true)
         (constraints csp).

Definition emits_only_solutions (csp : NaryCSP) : Prop :=
  ∃ L, (list_backtracking csp initial_store).1 = Ok L ∧ Forall (sound_solution csp) L.

(** The body of the [for value in sorted(...)] loop of [backtracking]. *)
Definition branch (fuel : nat) (csp : NaryCSP) (assignment : loc) (var : string)
    (value : Z) : Py (list loc) :=
  new_assignment ← dict_copy assignment;
  dict_setitem new_assignment var value;;
  a' ← deref new_assignment;
  if consistent csp a'
  then backtracking_fuel fuel csp new_assignment
  else mret [].

(** A model without variables whose only constraint, of empty scope, fails. *)
Definition no_variable_csp : NaryCSP :=
  {| domains := []; constraints := [ {| scope := []; condition := λ _, false |} ] |}.

(** A complete assignment of the script's model: every order and corridor
    variable bound to 0 or 1. *)
Definition instance_assignment (s : assignment) : Prop :=
  complete csp_instance s ∧ in_domains csp_instance s.

(** An order or a corridor is selected when its variable is 1. *)
Definition selected_orders (s : assignment) : list nat :=
  filter (λ o, s !! Pedido o = Some 1) (seq 0 (length orders)).

Definition selected_corridors (s : assignment) : list nat :=
  filter (λ a, s !! Corredor a = Some 1) (seq 0 (length corridors)).

(** Units collected: the totals of the selected orders. *)
Definition collected_units (s : assignment) : Z :=
  py_sum ((λ o, default 0 (order_totals !! o)) <$> selected_orders s).

(** Demand and capacity of item [i] over the selected orders and corridors. *)
Definition item_demand (s : assignment) (i : nat) : Z :=
  py_sum ((λ o, default 0 (index2 orders o i)) <$> selected_orders s).

Definition item_capacity (s : assignment) (i : nat) : Z :=
  py_sum ((λ a, default 0 (index2 corridors a i)) <$> selected_corridors s).

Definition corridors_used (s : assignment) : nat := length (selected_corridors s).

Definition wave_feasible (s : assignment) : Prop :=
  (LB ≤ collected_units s ∧ collected_units s ≤ UB) ∧
  Forall (λ i, item_demand s i ≤ item_capacity s i) (seq 0 5).

(** Units per corridor used, and [-1] when no corridor is used. *)
Definition productivity (s : assignment) : Q :=
  if decide (corridors_used s = 0%nat) then inject_Z (-1)
  else (inject_Z (collected_units s) / inject_Z (Z.of_nat (corridors_used s)))%Q.

Definition objective_le (q : Q) (s : assignment) : Prop :=
  ∃ q', objective s = Ok q' ∧ (q' <= q)%Q.

Definition objective_lt (q : Q) (s : assignment) : Prop :=
  ∃ q', objective s = Ok q' ∧ (q' < q)%Q.

(** The selection holds a solution of the list, at its 1-based position, with
    its objective value, and no solution of the list has a larger one. *)
Definition selects_maximal (solutions : list assignment) (sel : selection) : Prop :=
  ∃ sol, best_solution sel = Some sol ∧ objective sol = Ok (best_obj sel) ∧
         1 ≤ best_index sel ∧
         solutions !! Z.to_nat (best_index sel - 1) = Some sol ∧
         Forall (objective_le (best_obj sel)) solutions.

(** Among tied maxima the first, respectively the last, is the one kept. *)
Definition keeps_first (solutions : list assignment) (sel : selection) : Prop :=
  ∀ j s, (j < Z.to_nat (best_index sel - 1))%nat → solutions !! j = Some s →
         objective_lt (best_obj sel) s.

Definition keeps_last (solutions : list assignment) (sel : selection) : Prop :=
  ∀ j s, (Z.to_nat (best_index sel - 1) < j)%nat → solutions !! j = Some s →
         objective_lt (best_obj sel) s.

(** Invariant of the selection loop after the solutions [done]. *)
Definition loop_inv (done : list assignment) (sel : selection) : Prop :=
  (inject_Z (-1) <= best_obj sel)%Q ∧
  (done = [] → sel = selection_init) ∧
  (done ≠ [] → selects_maximal done sel ∧ keeps_last done sel ∧
               best_index sel ≤ Z.of_nat (length done)).

(** The value of an outcome that is known to be [Ok]. *)
Definition outcome_default {A} (d : A) (o : outcome A) : A :=
  match o with
  | Ok a => a
  | _ => d
  end.

Definition is_ok {A} (o : outcome A) : bool :=
  match o with
  | Ok _ => true
  | _ => false
  end.

(** Small models used as test cases: two binary variables with [A + B = 1];
    one variable with one value and a constraint that always fails; and
    domains of different sizes. *)
Definition ab_csp : NaryCSP :=
  {| domains := [("A", {[0; 1]}); ("B", {[0; 1]})];
     constraints :=
       [ {| scope := ["A"; "B"];
            condition := λ vals, match vals with
                                 | [x; y] => x + y =? 1
                                 | _ => false
                                 end |} ] |}.

Definition unsat_csp : NaryCSP :=
  {| domains := [("X", {[0]})];
     constraints := [ {| scope := ["X"]; condition := λ _, false |} ] |}.

Definition mixed_csp : NaryCSP :=
  {| domains := [("x", {[3; 1; 2]}); ("y", {[5]}); ("z", {[7]})];
     constraints := [] |}.

(** Stores and assignments used as test inputs: a caller's partial
    assignment [{A: 1}], and an assignment with a key the model does not
    declare. *)
Definition partial_store : store := Store [∅; <["A" := 1]> ∅] [].

Definition foreign_store : store :=
  Store [∅; <["A" := 0]> (<["B" := 0]> (<["Z" := 0]> ∅))] [].

(** The references [locs] are pairwise distinct and were all allocated
    between [σ] and [σ']. *)
Definition fresh_yields (σ σ' : store) (locs : list loc) : Prop :=
  NoDup locs ∧ Forall (λ l', (length (heap σ) ≤ l' < length (heap σ'))%nat) locs.

(** Decision procedures used to check the finitely many assignments of the
    instance by evaluation. *)
#[local] Instance Q_eq_dec : EqDecision Q.
Proof. solve_decision. Defined.

#[local] Instance exn_eq_dec : EqDecision exn.
Proof. solve_decision. Defined.

#[local] Instance outcome_eq_dec {A} `{EqDecision A} : EqDecision (outcome A).
Proof. solve_decision. Defined.

#[local] Instance wave_feasible_dec (s : assignment) : Decision (wave_feasible s).
Proof. unfold wave_feasible. apply _. Defined.

(** [for idx, sol in enumerate(solutions, start=idx): print_solution(sol, idx)]:
    the loop that prints every feasible wave. *)
Fixpoint print_all (idx : Z) (solutions : list assignment) : outcome (list wave_report) :=
  match solutions with
  | [] => Ok []
  | sol :: rest =>
      r ← print_solution (Some sol) idx;
      rs ← print_all (idx + 1) rest;
      mret (r :: rs)
  end.

(** The script from [solutions = list(backtracking(csp_instance))] to its
    end, for a model [csp] in place of [csp_instance]: all waves are printed,
    then the best one. *)
Definition script (csp : NaryCSP) : outcome (list wave_report * wave_report) :=
  solutions ← (list_backtracking csp initial_store).1;
  waves ← print_all 1 solutions;
  best ← report_best solutions;
  mret (waves, best).

(** The report of a wave in the vocabulary above: the names of the selected
    orders and corridors in index order, the units collected, the corridors
    used and the productivity. *)
Definition report_of (s : assignment) (index : Z) : wave_report :=
  WaveReport index (Pedido <$> selected_orders s) (Corredor <$> selected_corridors s)
             (collected_units s) (Z.of_nat (corridors_used s)) (productivity s).

#[local] Instance wave_report_eq_dec : EqDecision wave_report.
Proof. solve_decision. Defined.

(** * Properties *)

(** ** Test cases *)

Example ab_scenario :
  (list_backtracking ab_csp initial_store).1
  = Ok [ <["A" := 0]> (<["B" := 1]> ∅); <["A" := 1]> (<["B" := 0]> ∅) ].
Proof. vm_compute. reflexivity. Qed.

Example unsat_scenario : (list_backtracking unsat_csp initial_store).1 = Ok [].
Proof. vm_compute. reflexivity. Qed.

(** [y] and [z] have the smallest domains and [y] is declared first; the
    values of [x] are tried in ascending order.  The write log shows the
    order of the bindings and the fresh dict each one goes to. *)
Example mixed_scenario :
  writes (list_backtracking mixed_csp initial_store).2
  = [ (1%nat, "y", 5); (2%nat, "z", 7);
      (3%nat, "x", 1); (4%nat, "x", 2); (5%nat, "x", 3) ].
Proof. vm_compute. reflexivity. Qed.

Example py_min_first_minimal :
  py_min (λ n : nat, n `mod` 3)%nat [5; 4; 7; 3; 6]%nat = Some 3%nat.
Proof. reflexivity. Qed.

Example instance_variables :
  variables csp_instance
  = [ "Pedido1"; "Pedido2"; "Pedido3"; "Pedido4"; "Pedido5";
      "Corredor1"; "Corredor2"; "Corredor3"; "Corredor4"; "Corredor5" ].
Proof. vm_compute. reflexivity. Qed.

Example instance_order_totals : order_totals = [4; 2; 3; 5; 1].
Proof. reflexivity. Qed.

(** The script's own result: wave 297, orders 1, 2, 3, 5 through corridors
    2 and 4, ten units over two corridors. *)
Example script_result :
  report_best (outcome_default [] (list_backtracking csp_instance initial_store).1)
  = Ok (WaveReport 297 ["Pedido1"; "Pedido2"; "Pedido3"; "Pedido5"]
                   ["Corredor2"; "Corredor4"] 10 2 (10 # 2)%Q).
Proof. vm_compute. reflexivity. Qed.

(** ** Builtins *)

Lemma sorted_elem_of (d : gset Z) (x : Z) : x ∈ sorted d ↔ x ∈ d.
Proof.
  unfold sorted. rewrite merge_sort_Permutation. apply elem_of_elements.
Qed.

Lemma sorted_NoDup (d : gset Z) : NoDup (sorted d).
Proof.
  unfold sorted. rewrite merge_sort_Permutation. apply NoDup_elements.
Qed.

Lemma StronglySorted_le_lt (l : list Z) :
  NoDup l → StronglySorted Z.le l → StronglySorted Z.lt l.
Proof.
  induction 2 as [|x l Hs IH Hall]; constructor.
  - apply IH. by eapply NoDup_cons_1_2.
  - apply NoDup_cons in H as [Hx _].
    rewrite Forall_forall in Hall |- *. intros y Hy.
    specialize (Hall y Hy). assert (x ≠ y) by (intros ->; done). lia.
Qed.

Lemma sorted_ascending (d : gset Z) : StronglySorted Z.lt (sorted d).
Proof.
  apply StronglySorted_le_lt; [apply sorted_NoDup|].
  unfold sorted. apply StronglySorted_merge_sort; apply _.
Qed.

Section py_min.
Context {A : Type} (key : A → nat).

(** The running minimum is the first element of [x :: l] with the least key. *)
Lemma py_min_from_first (x : A) (l : list A) :
  ∃ l1 l2, x :: l = l1 ++ py_min_from key x l :: l2 ∧
    Forall (λ y, key (py_min_from key x l) < key y)%nat l1 ∧
    Forall (λ y, key (py_min_from key x l) ≤ key y)%nat l2.
Proof.
  unfold py_min_from.
  revert x. induction l as [|y l IH] using rev_ind; intros x.
  - exists [], []. simpl. repeat split; constructor.
  - rewrite fold_left_app. simpl.
    destruct (IH x) as (l1 & l2 & Heq & H1 & H2).
    set (m := fold_left _ l x) in *.
    destruct (Nat.ltb_spec (key y) (key m)) as [Hlt|Hge].
    + exists (x :: l), []. split; [done|]. split; [|constructor].
      rewrite Heq. apply Forall_app. split.
      * eapply Forall_impl; [exact H1|]. simpl. intros; lia.
      * constructor; [done|]. eapply Forall_impl; [exact H2|]. simpl. intros; lia.
    + exists l1, (l2 ++ [y]). split.
      * rewrite app_comm_cons, Heq. by rewrite <- app_assoc.
      * split; [done|]. apply Forall_app. split; [done|]. by constructor.
Qed.

Lemma py_min_elem_of (l : list A) (x : A) : py_min key l = Some x → x ∈ l.
Proof.
  destruct l as [|y l]; [done|]. simpl. intros [= <-].
  destruct (py_min_from_first y l) as (l1 & l2 & -> & _).
  set_solver.
Qed.

Lemma py_min_None (l : list A) : py_min key l = None ↔ l = [].
Proof. by destruct l. Qed.
End py_min.

Lemma dict_get_Some_elem_of {V} (d : list (string * V)) (k : string) (v : V) :
  dict_get d k = Some v → (k, v) ∈ d.
Proof.
  induction d as [|[k' v'] d IH]; simpl; [done|].
  case_decide; [intros [= ->]; subst; left | right; auto].
Qed.

Lemma dict_get_is_Some {V} (d : list (string * V)) (k : string) :
  k ∈ d.*1 → is_Some (dict_get d k).
Proof.
  induction d as [|[k' v'] d IH]; simpl; [by intros ?%elem_of_nil|].
  case_decide; [eauto|]. intros [?|?]%elem_of_cons; [done|auto].
Qed.

Lemma dict_get_None {V} (d : list (string * V)) (k : string) :
  k ∉ d.*1 → dict_get d k = None.
Proof.
  intros Hk. destruct (dict_get d k) eqn:E; [|done].
  apply dict_get_Some_elem_of in E. destruct Hk.
  apply list_elem_of_fmap. by exists (k, v).
Qed.

(** ** The consistency query *)

Lemma scope_values_Some (a : assignment) (sc : list string) (vals : list Z) :
  scope_values a sc = Some vals ↔ Forall2 (λ v x, a !! v = Some x) sc vals.
Proof. unfold scope_values. apply mapM_Some. Qed.

Lemma scope_values_mono (a s : assignment) (sc : list string) (vals : list Z) :
  a ⊆ s → scope_values a sc = Some vals → scope_values s sc = Some vals.
Proof.
  rewrite map_subseteq_spec, !scope_values_Some. intros Hsub.
  intros H. eapply Forall2_impl; [exact H|]. auto.
Qed.

Lemma scope_values_is_Some (a : assignment) (sc : list string) :
  (∀ v, v ∈ sc → is_Some (a !! v)) → is_Some (scope_values a sc).
Proof.
  intros H. unfold scope_values. apply mapM_is_Some, Forall_forall. exact H.
Qed.

(** A constraint checkable on a sub-assignment sees the same values in any
    extension, so consistency is inherited downwards. *)
Lemma consistent_mono (csp : NaryCSP) (a s : assignment) :
  a ⊆ s → consistent csp s = true → consistent csp a = true.
Proof.
  intros Hsub. unfold consistent. rewrite !forallb_forall.
  intros Hs c Hc. specialize (Hs c Hc).
  destruct (scope_values a (scope c)) as [vals|] eqn:E; [|done].
  by rewrite (scope_values_mono _ _ _ _ Hsub E) in Hs.
Qed.

Lemma forallb_ext_elem {A} (f g : A → bool) (l : list A) :
  (∀ x, x ∈ l → f x = g x) → forallb f l = forallb g l.
Proof.
  induction l as [|x l IH]; simpl; [done|]. intros H.
  rewrite (H x) by left. rewrite IH; [done|]. intros y Hy. apply H. by right.
Qed.

(** On a complete assignment of a model whose scopes are declared, no
    constraint is skipped: the check is the conjunction of all predicates. *)
Lemma consistent_complete (csp : NaryCSP) (s : assignment) :
  scopes_declared csp → complete csp s → consistent csp s = satisfies csp s.
Proof.
  intros Hsc Hs. unfold consistent, satisfies, holds.
  apply forallb_ext_elem. intros c Hc.
  destruct (scope_values_is_Some s (scope c)) as [vals ->]; [|done].
  intros v Hv. apply Hs. by eapply Hsc.
Qed.

(** ** Size of an assignment against the number of variables *)

Section size.
Context (csp : NaryCSP) (a : assignment).
Hypothesis Hwf : dict_wf csp.
Hypothesis Hdom : ∀ v, is_Some (a !! v) → v ∈ variables csp.

Lemma size_bound : (size a ≤ length (domains csp))%nat.
Proof.
  rewrite <- size_dom, <- (length_fmap fst (domains csp)).
  fold (variables csp).
  rewrite <- (size_list_to_set (C := gset string) (variables csp)) by exact Hwf.
  apply subseteq_size. intros v Hv. apply elem_of_list_to_set, Hdom.
  by apply elem_of_dom.
Qed.

Lemma size_full :
  size a = length (domains csp) ↔ ∀ v, v ∈ variables csp → is_Some (a !! v).
Proof.
  rewrite <- size_dom, <- (length_fmap fst (domains csp)).
  fold (variables csp).
  rewrite <- (size_list_to_set (C := gset string) (variables csp)) by exact Hwf.
  assert (dom a ⊆ list_to_set (variables csp)) as Hsub.
  { intros v Hv. apply elem_of_list_to_set, Hdom. by apply elem_of_dom. }
  split.
  - intros Hsz v Hv. apply elem_of_dom.
    rewrite (set_subseteq_size_eq _ _ Hsub) by lia. by apply elem_of_list_to_set.
  - intros Hall. f_equal. apply set_eq. intros v.
    rewrite elem_of_list_to_set, elem_of_dom. split; auto.
Qed.

(** While some variable is unbound, [min] finds one. *)
Lemma unassigned_min :
  size a ≠ length (domains csp) →
  ∃ var D, py_min (domain_size csp) (unassigned_variables csp a) = Some var
           ∧ var ∈ variables csp ∧ a !! var = None
           ∧ dict_get (domains csp) var = Some D.
Proof.
  intros Hne.
  destruct (py_min (domain_size csp) (unassigned_variables csp a))
    as [var|] eqn:E.
  - apply py_min_elem_of in E as Hin. apply list_elem_of_filter in Hin as [Hnone Hin].
    destruct (dict_get_is_Some (domains csp) var Hin) as [D HD]. eauto 10.
  - apply py_min_None in E. destruct Hne. apply size_full. intros v Hv.
    destruct (a !! v) eqn:Ev; [eauto|].
    assert (v ∈ unassigned_variables csp a) as Hf
      by (by apply list_elem_of_filter).
    rewrite E in Hf. by apply elem_of_nil in Hf.
Qed.
End size.

(** ** The search on values *)

Lemma concat_outcomes_spec {A B} (xs : list A) (body : A → outcome (list B))
    (P : A → B → Prop) :
  NoDup xs →
  (∀ x, x ∈ xs → ∃ L, body x = Ok L ∧ NoDup L ∧ ∀ s, s ∈ L ↔ P x s) →
  (∀ x y s, P x s → P y s → x = y) →
  ∃ L, concat_outcomes xs body = Ok L ∧ NoDup L ∧ ∀ s, s ∈ L ↔ ∃ x, x ∈ xs ∧ P x s.
Proof.
  intros Hnd Hbody Hdisj. induction xs as [|x xs IH]; simpl.
  - exists []. split; [done|]. split; [constructor|].
    intros s. split; [by intros ?%elem_of_nil|]. by intros (? & ?%elem_of_nil & _).
  - apply NoDup_cons in Hnd as [Hx Hnd].
    destruct (Hbody x) as (Lx & -> & HLx & HPx); [by left|].
    destruct IH as (L & -> & HL & HP); [done| |].
    { intros y Hy. apply Hbody. by right. }
    simpl. exists (Lx ++ L). split; [done|]. split.
    + apply NoDup_app. split; [done|]. split; [|done].
      intros s Hs1 Hs2. apply HPx in Hs1. apply HP in Hs2 as (y & Hy & Hs2).
      by rewrite (Hdisj _ _ _ Hs1 Hs2) in Hx.
    + intros s. rewrite elem_of_app, HPx, HP. split.
      * intros [?|(y & ? & ?)]; [exists x | exists y]; split; auto; by constructor.
      * intros (y & [->|?]%elem_of_cons & ?); eauto.
Qed.

Section solve.
Context (csp : NaryCSP).
Hypothesis Hwf : dict_wf csp.

(** A complete assignment has nothing below it but itself. *)
Lemma solution_from_full (a s : assignment) :
  (∀ v, is_Some (a !! v) → v ∈ variables csp) →
  size a = length (domains csp) →
  solution_from csp a s ↔ s = a.
Proof.
  intros Hdom Hsz. pose proof (proj1 (size_full csp a Hwf Hdom) Hsz) as Hall.
  split.
  - intros (Hsub & Hc & _). apply map_eq. intros v.
    destruct (a !! v) as [x|] eqn:E.
    + by apply (proj1 (map_subseteq_spec a s) Hsub).
    + destruct (s !! v) eqn:Es; [|done].
      assert (v ∈ variables csp) as Hv by (apply Hc; eauto).
      apply Hall in Hv as [? ?]. congruence.
  - intros ->. split; [done|]. split; [|split].
    + intros v. split; auto.
    + intros v x ? ?; congruence.
    + done.
Qed.

(** One level of the search: the solutions below [a] are the solutions
    below its consistent one-variable extensions. *)
Lemma solution_from_step (a s : assignment) (var : string) (D : gset Z) :
  a !! var = None → var ∈ variables csp → dict_get (domains csp) var = Some D →
  solution_from csp a s ↔
  ∃ x, x ∈ sorted D ∧ consistent csp (<[var := x]> a) = true
       ∧ solution_from csp (<[var := x]> a) s.
Proof.
  intros Hnone Hvar HD. split.
  - intros (Hsub & Hc & Hd & Hcons).
    destruct (proj2 (Hc var) Hvar) as [x Hx].
    assert (<[var := x]> a ⊆ s) as Hsub'.
    { apply map_subseteq_spec. intros v y. rewrite lookup_insert.
      case_decide; [naive_solver|]. by apply (proj1 (map_subseteq_spec a s) Hsub). }
    assert (s ≠ a) as Hne by (intros ->; congruence).
    exists x. split; [|split].
    + apply sorted_elem_of. destruct (Hd var x Hnone Hx) as (D' & HD' & ?). congruence.
    + eapply consistent_mono; eauto.
    + split; [done|]. split; [done|]. split; [|auto].
      intros v y Hv. apply Hd. rewrite lookup_insert in Hv. by case_decide.
  - intros (x & Hx & Hcx & Hsub & Hc & Hd & Hcons).
    assert (s !! var = Some x) as Hsx.
    { apply (proj1 (map_subseteq_spec _ s) Hsub). by rewrite lookup_insert_eq. }
    split; [|split; [done|split]].
    + etrans; [|exact Hsub]. by apply insert_subseteq.
    + intros v y Hv Hy. destruct (decide (var = v)) as [<-|Hne].
      * exists D. split; [done|]. apply sorted_elem_of. congruence.
      * apply Hd; [|done]. by rewrite lookup_insert_ne.
    + intros _. destruct (decide (s = <[var := x]> a)) as [->|]; auto.
Qed.

Lemma solve_spec (fuel : nat) (a : assignment) :
  (∀ v, is_Some (a !! v) → v ∈ variables csp) →
  (length (domains csp) - size a < fuel)%nat →
  ∃ L, solve fuel csp a = Ok L ∧ NoDup L ∧ ∀ s, s ∈ L ↔ solution_from csp a s.
Proof.
  revert a. induction fuel as [|fuel IH]; intros a Hdom Hfuel; [lia|].
  simpl. case_decide as Hsz.
  - exists [a]. split; [done|]. split; [apply NoDup_singleton|].
    intros s. rewrite list_elem_of_singleton. symmetry. by apply solution_from_full.
  - destruct (unassigned_min csp a Hwf Hdom Hsz) as (var & D & Hmin & Hvar & Hnone & HD).
    rewrite Hmin, HD.
    pose proof (size_bound csp a Hwf Hdom) as Hle.
    destruct (concat_outcomes_spec (sorted D)
      (λ value, if consistent csp (<[var := value]> a)
                then solve fuel csp (<[var := value]> a) else Ok [])
      (λ x s, consistent csp (<[var := x]> a) = true
              ∧ solution_from csp (<[var := x]> a) s))
      as (L & HL & Hnd & Hin).
    + apply sorted_NoDup.
    + intros x Hx. destruct (consistent csp (<[var := x]> a)) eqn:Hc.
      * destruct (IH (<[var := x]> a)) as (L & HL & Hnd & Hin).
        { intros v. rewrite lookup_insert. case_decide; [by subst|auto]. }
        { rewrite map_size_insert_None by done. lia. }
        exists L. split; [done|]. split; [done|]. intros s. rewrite Hin. tauto.
      * exists []. split; [done|]. split; [constructor|].
        intros s. split; [by intros ?%elem_of_nil|]. by intros [? _].
    + intros x y s [_ (Hx & _)] [_ (Hy & _)].
      pose proof (proj1 (map_subseteq_spec _ s) Hx var x) as H1.
      pose proof (proj1 (map_subseteq_spec _ s) Hy var y) as H2.
      rewrite lookup_insert_eq in H1, H2. specialize (H1 eq_refl).
      specialize (H2 eq_refl). congruence.
    + exists L. split; [done|]. split; [done|]. intros s.
      by rewrite Hin, (solution_from_step a s var D).
Qed.
End solve.

(** ** Brute-force enumeration *)

Lemma all_assignments_spec (doms : list (string * gset Z)) (s : assignment) :
  NoDup doms.*1 →
  s ∈ all_assignments doms ↔
    (∀ v, is_Some (s !! v) ↔ v ∈ doms.*1) ∧
    (∀ v x, s !! v = Some x → ∃ D, dict_get doms v = Some D ∧ x ∈ D).
Proof.
  revert s. induction doms as [|[v d] doms IH]; intros s Hnd; simpl.
  - rewrite list_elem_of_singleton. split.
    + intros ->. split; [|by intros ? ?; rewrite lookup_empty].
      intros w. rewrite lookup_empty. split; [by intros [? ?]|by intros ?%elem_of_nil].
    + intros [Hc _]. apply map_empty. intros w.
      destruct (s !! w) eqn:E; [|done].
      assert (w ∈ @nil string) as ?%elem_of_nil by (apply Hc; eauto). done.
  - simpl in Hnd. apply NoDup_cons in Hnd as [Hv Hnd].
    rewrite list_elem_of_bind. split.
    + intros (a & (x & ->%list_elem_of_singleton & Hx%sorted_elem_of)%list_elem_of_bind & Ha).
      apply IH in Ha as [Hc Hd]; [|done]. split.
      * intros w. rewrite lookup_insert_is_Some, elem_of_cons, Hc.
        destruct (decide (v = w)) as [->|]; [tauto|].
        split; [intros [?|[_ ?]]; [done|by right]|].
        intros [->|?]; [done|by right].
      * intros w y. rewrite lookup_insert. case_decide as Hw.
        -- intros [= <-]. subst w. by exists d.
        -- eauto.
    + intros [Hc Hd].
      destruct (proj2 (Hc v)) as [x Hx]; [by left|].
      exists (delete v s). split.
      * apply list_elem_of_bind. exists x. split.
        -- apply list_elem_of_singleton. by rewrite insert_delete_id.
        -- apply sorted_elem_of. destruct (Hd v x Hx) as (D & HD & ?).
           rewrite decide_True in HD by done. congruence.
      * apply IH; [done|]. split.
        -- intros w. rewrite lookup_delete_is_Some, Hc, elem_of_cons. split.
           ++ intros [? [?|?]]; [congruence|done].
           ++ intros Hw. split; [by intros ->|by right].
        -- intros w y. rewrite lookup_delete. case_decide; [done|].
           intros Hy. destruct (Hd w y Hy) as (D & HD & ?).
           rewrite decide_False in HD by done. eauto.
Qed.

(** From the empty assignment the search finds the brute-force solutions,
    provided the check on one extension is ever made (some variable exists) or
    has nothing to reject. *)
Lemma solve_brute_force (csp : NaryCSP) :
  dict_wf csp → scopes_declared csp →
  variables csp ≠ [] ∨ consistent csp ∅ = true →
  ∃ L, solve (S (length (domains csp))) csp ∅ = Ok L ∧ NoDup L ∧
       ∀ s, s ∈ L ↔ s ∈ brute_force csp.
Proof.
  intros Hwf Hsc Hroot.
  destruct (solve_spec csp Hwf (S (length (domains csp))) ∅) as (L & HL & Hnd & Hin).
  { intros v. rewrite lookup_empty. by intros [? ?]. }
  { lia. }
  exists L. split; [done|]. split; [done|]. intros s. rewrite Hin.
  unfold brute_force. rewrite list_elem_of_filter, all_assignments_spec by exact Hwf.
  unfold solution_from, complete. fold (variables csp).
  split.
  - intros (_ & Hc & Hd & Hcons). split; [|split; [done|]].
    + rewrite <- consistent_complete by done.
      destruct (decide (s = ∅)) as [->|]; [|auto].
      destruct Hroot as [Hv|]; [|done].
      destruct (variables csp) as [|v vs] eqn:E; [done|].
      destruct (proj2 (Hc v)) as [x Hx]; [by left|]. by rewrite lookup_empty in Hx.
    + intros v x. apply Hd, lookup_empty.
  - intros (Hsat & Hc & Hd). split; [apply map_empty_subseteq|].
    split; [done|]. split; [eauto|]. intros _. by rewrite consistent_complete.
Qed.

(** ** The search on references *)

Lemma written_app (w1 w2 : list (nat * string * Z)) :
  written (w1 ++ w2) = written w1 ++ written w2.
Proof. unfold written. by rewrite !fmap_app. Qed.

Lemma store_extends_refl (σ : store) : store_extends σ σ.
Proof.
  split; [exists []; by rewrite app_nil_r|].
  exists []. rewrite app_nil_r. repeat split; constructor.
Qed.

Lemma store_extends_length (σ σ' : store) :
  store_extends σ σ' → (length (heap σ) ≤ length (heap σ'))%nat.
Proof. intros [[e ->] _]. rewrite length_app. lia. Qed.

Lemma store_extends_trans (σ1 σ2 σ3 : store) :
  store_extends σ1 σ2 → store_extends σ2 σ3 → store_extends σ1 σ3.
Proof.
  intros H12 H23.
  pose proof (store_extends_length _ _ H12) as Hl12.
  pose proof (store_extends_length _ _ H23) as Hl23.
  destruct H12 as [[e1 He1] (w1 & Hw1 & HF1 & Hnd1)].
  destruct H23 as [[e2 He2] (w2 & Hw2 & HF2 & Hnd2)].
  rewrite Forall_forall in HF1, HF2. split.
  - exists (e1 ++ e2). by rewrite He2, He1, app_assoc.
  - exists (w1 ++ w2). split; [by rewrite Hw2, Hw1, app_assoc|].
    rewrite written_app. split.
    + apply Forall_app. split; apply Forall_forall; intros l Hl.
      * specialize (HF1 l Hl). lia.
      * specialize (HF2 l Hl). lia.
    + apply NoDup_app. split; [done|]. split; [|done].
      intros l Hl1 Hl2. specialize (HF1 l Hl1). specialize (HF2 l Hl2). lia.
Qed.

Lemma store_extends_lookup (σ σ' : store) (l : loc) (a : assignment) :
  store_extends σ σ' → heap σ !! l = Some a → heap σ' !! l = Some a.
Proof. intros [[e ->] _] H. by apply lookup_app_l_Some. Qed.

Lemma deref_run {B} (l : loc) (a : assignment) (k : assignment → Py B) (σ : store) :
  heap σ !! l = Some a → (deref l ≫= k) σ = k a σ.
Proof. intros H. unfold mbind, Py_bind, deref. by rewrite H. Qed.

(** [new = d.copy(); new[k] = v] allocates one dict and writes to it only. *)
Lemma copy_setitem_run {B} (l : loc) (a : assignment) (var : string) (x : Z)
    (k : loc → Py B) (σ : store) :
  heap σ !! l = Some a →
  (new ← dict_copy l; dict_setitem new var x;; k new) σ =
  k (length (heap σ))
    (Store (heap σ ++ [<[var := x]> a]) (writes σ ++ [(length (heap σ), var, x)])).
Proof.
  intros H. unfold mbind, Py_bind, dict_copy, dict_setitem. rewrite H. simpl.
  rewrite lookup_app_r, Nat.sub_diag by lia. simpl.
  rewrite insert_app_r_alt, Nat.sub_diag by lia. done.
Qed.

Lemma copy_setitem_extends (σ : store) (a' : assignment) (var : string) (x : Z) :
  store_extends σ
    (Store (heap σ ++ [a']) (writes σ ++ [(length (heap σ), var, x)])).
Proof.
  split; simpl; [by eexists|]. eexists. split; [done|]. split.
  - repeat constructor. simpl. rewrite length_app. simpl. lia.
  - apply NoDup_singleton.
Qed.

Lemma sim_result_extends (σ σ' : store) r p :
  store_extends σ σ' → sim_result σ' r p → sim_result σ r p.
Proof.
  intros He [He' Hr]. split; [|done]. by eapply store_extends_trans.
Qed.

Lemma for_yield_sim {A} (l : loc) (a : assignment) (xs : list A)
    (body : A → Py (list loc)) (pbody : A → outcome (list assignment)) :
  (∀ x σ, heap σ !! l = Some a → sim_result σ (body x σ) (pbody x)) →
  ∀ σ, heap σ !! l = Some a →
       sim_result σ (for_yield xs body σ) (concat_outcomes xs pbody).
Proof.
  intros Hbody. induction xs as [|x xs IH]; intros σ Hl; simpl.
  - split; [apply store_extends_refl|]. exists []. split; [done|constructor].
  - unfold mbind at 1, Py_bind at 1.
    destruct (Hbody x σ Hl) as [He Hr].
    destruct (body x σ) as [r σ1]. simpl in *.
    destruct (pbody x) as [sols|e|]; simpl.
    + destruct Hr as (locs & -> & HF).
      unfold mbind at 1, Py_bind at 1.
      destruct (IH σ1) as [He2 Hr2]; [by eapply store_extends_lookup|].
      destruct (for_yield xs body σ1) as [r2 σ2]. simpl in *.
      destruct (concat_outcomes xs pbody) as [sols2|e|]; simpl.
      * destruct Hr2 as (locs2 & -> & HF2). simpl.
        split; [by eapply store_extends_trans|].
        exists (locs ++ locs2). split; [done|]. apply Forall2_app; [|done].
        eapply Forall2_impl; [exact HF|]. simpl. intros l' s.
        by eapply store_extends_lookup.
      * subst r2. split; [by eapply store_extends_trans|done].
      * subst r2. split; [by eapply store_extends_trans|done].
    + subst r. by split.
    + subst r. by split.
Qed.

(** The generator on references computes what [solve] computes on values,
    allocating and writing only fresh dicts. *)
Lemma backtracking_fuel_sim (csp : NaryCSP) (fuel : nat) :
  ∀ (l : loc) (a : assignment) (σ : store),
    heap σ !! l = Some a →
    sim_result σ (backtracking_fuel fuel csp l σ) (solve fuel csp a).
Proof.
  induction fuel as [|fuel IH]; intros l a σ Hl.
  - split; [apply store_extends_refl|done].
  - simpl. rewrite (deref_run l a) by done.
    case_decide.
    + split; [apply store_extends_refl|]. exists [l]. split; [done|].
      by repeat constructor.
    + destruct (py_min _ _) as [var|]; [|by split; [apply store_extends_refl|]].
      destruct (dict_get _ var) as [D|]; [|by split; [apply store_extends_refl|]].
      apply (for_yield_sim l a); [|done].
      intros x σ' Hl'. rewrite (copy_setitem_run l a) by done.
      eapply sim_result_extends; [apply copy_setitem_extends|].
      rewrite (deref_run (length (heap σ')) (<[var := x]> a)).
      2:{ simpl. by rewrite lookup_app_r, Nat.sub_diag by lia. }
      destruct (consistent csp (<[var := x]> a)).
      * apply IH. simpl. by rewrite lookup_app_r, Nat.sub_diag by lia.
      * split; [apply store_extends_refl|]. exists []. split; [done|constructor].
Qed.

Lemma Py_bind_run {A B} (m : Py A) (k : A → Py B) (σ : store) :
  (m ≫= k) σ =
  match m σ with
  | (Ok a, σ') => k a σ'
  | (Raise e, σ') => (Raise e, σ')
  | (OutOfFuel, σ') => (OutOfFuel, σ')
  end.
Proof. done. Qed.

Lemma mapM_deref (σ : store) (locs : list loc) (sols : list assignment) :
  Forall2 (λ l s, heap σ !! l = Some s) locs sols →
  mapM deref locs σ = (Ok sols, σ).
Proof.
  induction 1 as [|l s locs sols Hl _ IH]; [done|].
  simpl. rewrite (deref_run l s) by done.
  by rewrite Py_bind_run, IH.
Qed.

(** [list(backtracking(csp))] from any store whose default dict is still
    empty: the outcome is the one computed on values, and the store is only
    extended. *)
Lemma list_backtracking_solve (csp : NaryCSP) (σ : store) :
  heap σ !! default_assignment = Some ∅ →
  (list_backtracking csp σ).1 = solve (S (length (domains csp))) csp ∅ ∧
  store_extends σ (list_backtracking csp σ).2.
Proof.
  intros H0. unfold list_backtracking, backtracking.
  pose proof (backtracking_fuel_sim csp (S (length (domains csp))) _ _ σ H0) as Hsim.
  rewrite Py_bind_run.
  destruct (backtracking_fuel _ csp default_assignment σ) as [r σ'].
  destruct Hsim as [He Hr]. cbn [fst snd] in He, Hr.
  destruct (solve (S (length (domains csp))) csp ∅) as [sols|e|].
  - destruct Hr as (locs & -> & HF). by rewrite (mapM_deref _ _ _ HF).
  - by subst r.
  - by subst r.
Qed.

(** The search never leaves its store otherwise than extended. *)
Lemma backtracking_fuel_extends (csp : NaryCSP) (fuel : nat) (l : loc) (σ : store) :
  store_extends σ (backtracking_fuel fuel csp l σ).2.
Proof.
  destruct (heap σ !! l) as [a|] eqn:E.
  - by destruct (backtracking_fuel_sim csp fuel l a σ E).
  - destruct fuel; simpl; [apply store_extends_refl|].
    unfold mbind, Py_bind, deref. rewrite E. apply store_extends_refl.
Qed.

Lemma scopes_declared_check (csp : NaryCSP) :
  forallb (λ c, forallb (λ v, bool_decide (v ∈ variables csp)) (scope c))
          (constraints csp) = true →
  scopes_declared csp.
Proof.
  rewrite forallb_forall. intros H c Hc%list_elem_of_In v Hv%list_elem_of_In.
  specialize (H c Hc). rewrite forallb_forall in H.
  specialize (H v Hv). by apply bool_decide_eq_true in H.
Qed.

Lemma csp_instance_wf : dict_wf csp_instance.
Proof. unfold dict_wf. apply (bool_decide_unpack _). by vm_compute. Qed.

Lemma csp_instance_scopes : scopes_declared csp_instance.
Proof. apply scopes_declared_check. by vm_compute. Qed.

Lemma csp_instance_has_variables :
  variables csp_instance ≠ [] ∨ consistent csp_instance ∅ = true.
Proof. left. by vm_compute. Qed.

Lemma list_backtracking_brute_force (csp : NaryCSP) :
  dict_wf csp → scopes_declared csp →
  variables csp ≠ [] ∨ consistent csp ∅ = true →
  ∃ L, (list_backtracking csp initial_store).1 = Ok L ∧ NoDup L ∧
       ∀ s, s ∈ L ↔ s ∈ brute_force csp.
Proof.
  intros Hwf Hsc Hroot.
  destruct (solve_brute_force csp Hwf Hsc Hroot) as (L & HL & Hnd & Hin).
  exists L. split; [|done].
  destruct (list_backtracking_solve csp initial_store) as [-> _]; done.
Qed.

(** * Claims *)

(** C1 (as amended): for every constraint model that declares at least one
    variable, or whose empty assignment passes the consistency check, the
    sequence emitted by [backtracking] has no two identical assignments and,
    as a set, is exactly the brute-force set: all combinations of one domain
    value per variable, filtered by every constraint predicate.  Dict keys are
    unique and scopes name declared variables, as in any constructed model. *)
Theorem backtracking_enumerates_brute_force (csp : NaryCSP) :
  dict_wf csp → scopes_declared csp →
  variables csp ≠ [] ∨ consistent csp ∅ = true →
  enumerates_exactly csp.
Proof.
  intros Hwf Hsc Hroot. by apply list_backtracking_brute_force.
Qed.

Lemma backtracking_enumerates_brute_force_witness :
  dict_wf csp_instance ∧ scopes_declared csp_instance ∧
  (variables csp_instance ≠ [] ∨ consistent csp_instance ∅ = true) ∧
  enumerates_exactly csp_instance.
Proof.
  assert (dict_wf csp_instance) as Hwf
    by (unfold dict_wf; apply (bool_decide_unpack _); vm_compute; exact I).
  assert (scopes_declared csp_instance) as Hsc
    by (apply scopes_declared_check; vm_compute; reflexivity).
  assert (variables csp_instance ≠ [] ∨ consistent csp_instance ∅ = true) as Hv
    by (left; vm_compute; discriminate).
  split; [exact Hwf|]. split; [exact Hsc|]. split; [exact Hv|].
  exact (backtracking_enumerates_brute_force csp_instance Hwf Hsc Hv).
Defined.

(** C1 as stated fails on a model without variables whose empty-scope
    constraint is false: the empty assignment is emitted although brute force
    keeps nothing. *)
Lemma backtracking_enumerates_counterexample :
  dict_wf no_variable_csp ∧ scopes_declared no_variable_csp ∧
  (list_backtracking no_variable_csp initial_store).1 = Ok [∅] ∧
  brute_force no_variable_csp = [] ∧
  ¬ enumerates_exactly no_variable_csp.
Proof.
  split; [constructor|]. split; [by apply scopes_declared_check|].
  split; [done|]. split; [done|].
  intros (L & HL & _ & Hin). injection HL as <-.
  assert (∅ ∈ brute_force no_variable_csp) as H by (apply Hin; left).
  by apply elem_of_nil in H.
Qed.

Lemma holds_true (c : Constraint) (s : assignment) :
  holds c s = true ↔ ∃ vals, scope_values s (scope c) = Some vals ∧ condition c vals = true.
Proof.
  unfold holds. destruct (scope_values s (scope c)) as [vals|].
  - split; [eauto|]. by intros (? & [= <-] & ?).
  - split; [done|]. by intros (? & ? & _).
Qed.

Lemma brute_force_sound (csp : NaryCSP) (s : assignment) :
  dict_wf csp → scopes_declared csp → s ∈ brute_force csp → sound_solution csp s.
Proof.
  intros Hwf Hsc [Hsat Hall]%list_elem_of_filter.
  apply all_assignments_spec in Hall as [Hc _]; [|exact Hwf].
  split; [exact Hc|]. split; [by rewrite consistent_complete|].
  apply Forall_forall. intros c Hc'%list_elem_of_In. apply holds_true.
  unfold satisfies in Hsat. rewrite forallb_forall in Hsat. auto.
Qed.

(** C2 (as amended): for every constraint model that declares at least one
    variable, or whose empty assignment passes the consistency check, every
    assignment emitted by [backtracking] binds exactly the variables of the
    model, passes the consistency check, and makes every constraint of the
    model true on the bound values of its whole scope (none is skipped). *)
Theorem backtracking_sound (csp : NaryCSP) :
  dict_wf csp → scopes_declared csp →
  variables csp ≠ [] ∨ consistent csp ∅ = true →
  emits_only_solutions csp.
Proof.
  intros Hwf Hsc Hroot.
  destruct (list_backtracking_brute_force csp Hwf Hsc Hroot) as (L & HL & _ & Hin).
  exists L. split; [done|].
  apply Forall_forall. intros s Hs. apply brute_force_sound; [done..|].
  by apply Hin.
Qed.

Lemma backtracking_sound_witness :
  dict_wf csp_instance ∧ scopes_declared csp_instance ∧
  (variables csp_instance ≠ [] ∨ consistent csp_instance ∅ = true) ∧
  emits_only_solutions csp_instance.
Proof.
  assert (dict_wf csp_instance) as Hwf
    by (unfold dict_wf; apply (bool_decide_unpack _); vm_compute; exact I).
  assert (scopes_declared csp_instance) as Hsc
    by (apply scopes_declared_check; vm_compute; reflexivity).
  assert (variables csp_instance ≠ [] ∨ consistent csp_instance ∅ = true) as Hv
    by (left; vm_compute; discriminate).
  split; [exact Hwf|]. split; [exact Hsc|]. split; [exact Hv|].
  exact (backtracking_sound csp_instance Hwf Hsc Hv).
Defined.

(** C2 as stated fails on the model without variables: the empty assignment
    is emitted without any consistency check, and the check rejects it. *)
Lemma backtracking_sound_counterexample :
  dict_wf no_variable_csp ∧ scopes_declared no_variable_csp ∧
  (list_backtracking no_variable_csp initial_store).1 = Ok [∅] ∧
  consistent no_variable_csp ∅ = false ∧
  ¬ emits_only_solutions no_variable_csp.
Proof.
  split; [constructor|]. split; [by apply scopes_declared_check|].
  split; [done|]. split; [done|].
  intros (L & HL & HF). injection HL as <-.
  apply Forall_inv in HF as (_ & Hc & _). discriminate Hc.
Qed.

(** C6: the search is deterministic and restartable.  For a model with unique
    keys there is one sequence [L] such that every invocation from a store
    whose default dict is empty (the initial store, or the store left by an
    earlier run) emits exactly [L], in that order, and leaves the default dict
    empty; so a second invocation after the first emits [L] again. *)
Theorem backtracking_restartable (csp : NaryCSP) :
  dict_wf csp →
  ∃ L, ∀ σ, heap σ !! default_assignment = Some ∅ →
    (list_backtracking csp σ).1 = Ok L ∧
    heap (list_backtracking csp σ).2 !! default_assignment = Some ∅ ∧
    (list_backtracking csp (list_backtracking csp σ).2).1 = Ok L.
Proof.
  intros Hwf.
  destruct (solve_spec csp Hwf (S (length (domains csp))) ∅) as (L & HL & _).
  { intros v. rewrite lookup_empty. by intros [? ?]. }
  { lia. }
  exists L. intros σ H0.
  destruct (list_backtracking_solve csp σ H0) as [H1 He].
  pose proof (store_extends_lookup _ _ _ _ He H0) as H0'.
  destruct (list_backtracking_solve csp _ H0') as [H2 _].
  split; [congruence|]. split; [done|congruence].
Qed.

Lemma backtracking_restartable_witness :
  dict_wf csp_instance ∧
  ∃ L, ∀ σ, heap σ !! default_assignment = Some ∅ →
    (list_backtracking csp_instance σ).1 = Ok L ∧
    heap (list_backtracking csp_instance σ).2 !! default_assignment = Some ∅ ∧
    (list_backtracking csp_instance (list_backtracking csp_instance σ).2).1 = Ok L.
Proof.
  assert (dict_wf csp_instance) as Hwf
    by (unfold dict_wf; apply (bool_decide_unpack _); vm_compute; exact I).
  split; [assumption|].
  exact (backtracking_restartable csp_instance Hwf).
Defined.

(** ** What the search writes *)

Lemma filter_sublist {A} (P : A → Prop) `{∀ x, Decision (P x)} (l : list A) :
  filter P l `sublist_of` l.
Proof.
  induction l as [|x l IH]; [constructor|].
  rewrite filter_cons. destruct (decide (P x)); by constructor.
Qed.

(** The bindings of [var] logged in [w], in order. *)
Lemma bound_values_app (var : string) (w1 w2 : list (nat * string * Z)) :
  (filter (λ e, e.1.2 = var) (w1 ++ w2)).*2
  = (filter (λ e, e.1.2 = var) w1).*2 ++ (filter (λ e, e.1.2 = var) w2).*2.
Proof. by rewrite filter_app, fmap_app. Qed.

Lemma bound_values_unbound (a : assignment) (var : string) (x : Z)
    (w : list (nat * string * Z)) :
  a !! var = Some x → Forall (λ e, a !! e.1.2 = None) w →
  (filter (λ e, e.1.2 = var) w).*2 = [].
Proof.
  intros Ha HF. induction HF as [|e w He _ IH]; [done|].
  rewrite filter_cons. destruct (decide (e.1.2 = var)) as [Heq|]; [|done].
  rewrite Heq in He. congruence.
Qed.

Lemma for_yield_writes {A} (l : loc) (a : assignment) (P : nat * string * Z → Prop)
    (xs : list A) (body : A → Py (list loc)) :
  (∀ x σ, heap σ !! l = Some a →
          store_extends σ (body x σ).2 ∧
          ∃ w, writes (body x σ).2 = writes σ ++ w ∧ Forall P w) →
  ∀ σ, heap σ !! l = Some a →
       ∃ w, writes (for_yield xs body σ).2 = writes σ ++ w ∧ Forall P w.
Proof.
  intros Hbody. induction xs as [|x xs IH]; intros σ Hl; simpl.
  - exists []. by rewrite app_nil_r.
  - rewrite Py_bind_run. destruct (Hbody x σ Hl) as [He (w1 & Hw1 & HF1)].
    destruct (body x σ) as [[ys|e|] σ1]; simpl in *; [|by eauto..].
    rewrite Py_bind_run.
    destruct (IH σ1) as (w2 & Hw2 & HF2); [by eapply store_extends_lookup|].
    destruct (for_yield xs body σ1) as [[zs|e|] σ2]; simpl in *;
      (exists (w1 ++ w2); split; [by rewrite Hw2, Hw1, app_assoc|by apply Forall_app]).
Qed.

(** [backtracking] only ever binds variables that its argument leaves
    unbound. *)
Lemma backtracking_fuel_writes (csp : NaryCSP) (fuel : nat) :
  ∀ (l : loc) (a : assignment) (σ : store),
    heap σ !! l = Some a →
    ∃ w, writes (backtracking_fuel fuel csp l σ).2 = writes σ ++ w ∧
         Forall (λ e, a !! e.1.2 = None) w.
Proof.
  induction fuel as [|fuel IH]; intros l a σ Hl.
  - exists []. by rewrite app_nil_r.
  - simpl. rewrite (deref_run l a) by done.
    case_decide; [exists []; by rewrite app_nil_r|].
    destruct (py_min _ _) as [var|] eqn:Hmin; [|exists []; by rewrite app_nil_r].
    apply py_min_elem_of, list_elem_of_filter in Hmin as [Hnone _].
    destruct (dict_get _ var) as [D|]; [|exists []; by rewrite app_nil_r].
    apply (for_yield_writes l a); [|done].
    intros x σ' Hl'. rewrite (copy_setitem_run l a) by done.
    pose proof (copy_setitem_extends σ' (<[var := x]> a) var x) as He.
    set (σ1 := Store _ _) in *.
    assert (heap σ1 !! length (heap σ') = Some (<[var := x]> a)) as Hnew.
    { simpl. by rewrite lookup_app_r, Nat.sub_diag by lia. }
    rewrite (deref_run _ _ _ _ Hnew).
    destruct (consistent csp (<[var := x]> a)).
    + split.
      { eapply store_extends_trans; [exact He|]. apply backtracking_fuel_extends. }
      destruct (IH _ _ σ1 Hnew) as (w & Hw & HF).
      exists ((length (heap σ'), var, x) :: w). split.
      * rewrite Hw. simpl. by rewrite <- app_assoc.
      * constructor; [done|]. eapply Forall_impl; [exact HF|].
        simpl. intros e. rewrite lookup_insert_None. tauto.
    + split; [done|]. exists [(length (heap σ'), var, x)]. split; [done|].
      by repeat constructor.
Qed.

Lemma for_yield_bound_values (l : loc) (a : assignment) (var : string)
    (xs : list Z) (body : Z → Py (list loc)) :
  (∀ x σ, heap σ !! l = Some a →
          store_extends σ (body x σ).2 ∧
          ∃ w, writes (body x σ).2 = writes σ ++ w ∧
               (filter (λ e, e.1.2 = var) w).*2 = [x]) →
  ∀ σ, heap σ !! l = Some a →
       ∃ w, writes (for_yield xs body σ).2 = writes σ ++ w ∧
            (is_ok (for_yield xs body σ).1 = true →
             (filter (λ e, e.1.2 = var) w).*2 = xs).
Proof.
  intros Hbody. induction xs as [|x xs IH]; intros σ Hl; simpl.
  - exists []. by rewrite app_nil_r.
  - rewrite Py_bind_run. destruct (Hbody x σ Hl) as [He (w1 & Hw1 & HF1)].
    destruct (body x σ) as [[ys|e|] σ1]; simpl in *;
      [|exists w1; split; done..].
    rewrite Py_bind_run.
    destruct (IH σ1) as (w2 & Hw2 & HF2); [by eapply store_extends_lookup|].
    destruct (for_yield xs body σ1) as [[zs|e|] σ2]; simpl in *;
      (exists (w1 ++ w2); split; [by rewrite Hw2, Hw1, app_assoc|]); [|done..].
    intros _. rewrite bound_values_app, HF1, HF2; done.
Qed.

(** One iteration of the loop binds [var] once, to the value of the
    iteration, and never again below. *)
Lemma branch_bound_values (csp : NaryCSP) (fuel : nat) (l : loc) (a : assignment)
    (var : string) (x : Z) (σ : store) :
  heap σ !! l = Some a →
  store_extends σ (branch fuel csp l var x σ).2 ∧
  ∃ w, writes (branch fuel csp l var x σ).2 = writes σ ++ w ∧
       (filter (λ e, e.1.2 = var) w).*2 = [x].
Proof.
  intros Hl. unfold branch. rewrite (copy_setitem_run l a) by done.
  pose proof (copy_setitem_extends σ (<[var := x]> a) var x) as He.
  set (σ1 := Store _ _) in *.
  assert (heap σ1 !! length (heap σ) = Some (<[var := x]> a)) as Hnew.
  { simpl. by rewrite lookup_app_r, Nat.sub_diag by lia. }
  rewrite (deref_run _ _ _ _ Hnew).
  destruct (consistent csp (<[var := x]> a)).
  - split.
    { eapply store_extends_trans; [exact He|]. apply backtracking_fuel_extends. }
    destruct (backtracking_fuel_writes csp fuel _ _ σ1 Hnew) as (w & Hw & HF).
    exists ((length (heap σ), var, x) :: w). split.
    + rewrite Hw. simpl. by rewrite <- app_assoc.
    + rewrite filter_cons, decide_True by done. simpl. f_equal.
      apply (bound_values_unbound (<[var := x]> a) var x); [|done].
      by rewrite lookup_insert_eq.
  - split; [done|]. exists [(length (heap σ), var, x)]. split; [done|].
    rewrite filter_cons, decide_True by done. done.
Qed.

(** C7: at every step with an unbound variable, [backtracking] picks the
    first unbound variable, in the insertion order of [csp.domains], whose
    domain is smallest: the unbound variables, in declaration order, split
    around the selected one into earlier ones with strictly larger domains
    and later ones with domains at least as large.  The loop then runs on the
    values of that domain in strictly ascending order: when the call raises
    nothing, the bindings of the selected variable it has made, in the order
    it made them, are exactly the values of the domain in ascending order. *)
Theorem backtracking_selection_policy (csp : NaryCSP) (fuel : nat) (l : loc)
    (a : assignment) (σ : store) (v0 : string) :
  heap σ !! l = Some a →
  size a ≠ length (domains csp) →
  v0 ∈ variables csp → a !! v0 = None →
  ∃ var before after D values w,
    (before ++ var :: after) `sublist_of` variables csp ∧
    (∀ v, v ∈ before ++ var :: after ↔ v ∈ variables csp ∧ a !! v = None) ∧
    a !! var = None ∧
    dict_get (domains csp) var = Some D ∧
    Forall (λ v, ∃ D', dict_get (domains csp) v = Some D' ∧ (size D < size D')%nat)
           before ∧
    Forall (λ v, ∃ D', dict_get (domains csp) v = Some D' ∧ (size D ≤ size D')%nat)
           after ∧
    (∀ x, x ∈ values ↔ x ∈ D) ∧ StronglySorted Z.lt values ∧
    backtracking_fuel (S fuel) csp l σ = for_yield values (branch fuel csp l var) σ ∧
    writes (backtracking_fuel (S fuel) csp l σ).2 = writes σ ++ w ∧
    (is_ok (backtracking_fuel (S fuel) csp l σ).1 = true →
     (filter (λ e, e.1.2 = var) w).*2 = values).
Proof.
  intros Hl Hsz Hv0 Hnone0.
  assert (∀ v, v ∈ unassigned_variables csp a ↔ v ∈ variables csp ∧ a !! v = None)
    as Hmem.
  { intros v. unfold unassigned_variables. rewrite list_elem_of_filter. tauto. }
  destruct (unassigned_variables csp a) as [|u us] eqn:Hf.
  { assert (v0 ∈ @nil string) as ?%elem_of_nil by (by apply Hmem). done. }
  destruct (py_min_from_first (domain_size csp) u us) as (before & after & Heq & H1 & H2).
  set (var := py_min_from (domain_size csp) u us) in *.
  assert (∀ v, v ∈ before ++ var :: after →
               ∃ D', dict_get (domains csp) v = Some D' ∧ domain_size csp v = size D')
    as Hdom.
  { intros v Hv. rewrite <- Heq in Hv. apply Hmem in Hv as [Hv _].
    destruct (dict_get_is_Some (domains csp) v Hv) as [D' HD'].
    exists D'. split; [done|]. unfold domain_size. by rewrite HD'. }
  destruct (Hdom var) as (D & HD & HsD); [apply elem_of_app; right; left|].
  assert (backtracking_fuel (S fuel) csp l σ
          = for_yield (sorted D) (branch fuel csp l var) σ) as Hstep.
  { simpl. rewrite (deref_run l a) by done.
    rewrite decide_False by done. rewrite Hf. simpl. fold var. by rewrite HD. }
  destruct (for_yield_bound_values l a var (sorted D) (branch fuel csp l var))
    with (σ := σ) as (w & Hw & Hvals); [|done|].
  { intros x σ' Hl'. by apply (branch_bound_values csp fuel l a). }
  exists var, before, after, D, (sorted D), w.
  split. { rewrite <- Heq, <- Hf. apply filter_sublist. }
  split. { intros v. by rewrite <- Heq. }
  split. { apply Hmem. rewrite Heq. apply elem_of_app. right. left. }
  split; [done|].
  split.
  { apply Forall_forall. intros v Hv. rewrite Forall_forall in H1.
    destruct (Hdom v) as (D' & HD' & HsD'); [apply elem_of_app; by left|].
    exists D'. split; [done|]. specialize (H1 v Hv). simpl in H1. lia. }
  split.
  { apply Forall_forall. intros v Hv. rewrite Forall_forall in H2.
    destruct (Hdom v) as (D' & HD' & HsD'); [apply elem_of_app; right; by right|].
    exists D'. split; [done|]. specialize (H2 v Hv). simpl in H2. lia. }
  split; [apply sorted_elem_of|]. split; [apply sorted_ascending|].
  split; [done|]. rewrite Hstep. by split.
Qed.

Lemma backtracking_selection_policy_witness :
  heap initial_store !! default_assignment = Some ∅ ∧
  size (∅ : assignment) ≠ length (domains mixed_csp) ∧
  "x" ∈ variables mixed_csp ∧ (∅ : assignment) !! "x" = None ∧
  ∃ var before after D values w,
    (before ++ var :: after) `sublist_of` variables mixed_csp ∧
    (∀ v, v ∈ before ++ var :: after ↔ v ∈ variables mixed_csp ∧ (∅ : assignment) !! v = None) ∧
    (∅ : assignment) !! var = None ∧
    dict_get (domains mixed_csp) var = Some D ∧
    Forall (λ v, ∃ D', dict_get (domains mixed_csp) v = Some D' ∧ (size D < size D')%nat)
           before ∧
    Forall (λ v, ∃ D', dict_get (domains mixed_csp) v = Some D' ∧ (size D ≤ size D')%nat)
           after ∧
    (∀ x, x ∈ values ↔ x ∈ D) ∧ StronglySorted Z.lt values ∧
    backtracking_fuel 4 mixed_csp default_assignment initial_store
      = for_yield values (branch 3 mixed_csp default_assignment var) initial_store ∧
    writes (backtracking_fuel 4 mixed_csp default_assignment initial_store).2
      = writes initial_store ++ w ∧
    (is_ok (backtracking_fuel 4 mixed_csp default_assignment initial_store).1 = true →
     (filter (λ e, e.1.2 = var) w).*2 = values).
Proof.
  assert (heap initial_store !! default_assignment = Some (∅ : assignment)) as H1
    by reflexivity.
  assert (size (∅ : assignment) ≠ length (domains mixed_csp)) as H2
    by (vm_compute; discriminate).
  assert ("x" ∈ variables mixed_csp) as H3 by (vm_compute; left).
  assert ((∅ : assignment) !! "x" = None) as H4 by reflexivity.
  split; [exact H1|]. split; [exact H2|]. split; [exact H3|]. split; [exact H4|].
  exact (backtracking_selection_policy mixed_csp 3 default_assignment ∅
           initial_store "x" H1 H2 H3 H4).
Defined.

(** C9: [backtracking] never mutates a dict it did not create.  Whatever the
    model, the reference passed and the store, every dict present before the
    call holds the same bindings after it; every write executed during the
    call targets a dict allocated during the call (a fresh copy), and no dict
    is written twice, so a copy handed to a recursive call is never changed
    again by its caller or by a sibling branch. *)
Theorem backtracking_frame (csp : NaryCSP) (l : loc) (σ : store) :
  (∀ l' a', heap σ !! l' = Some a' →
            heap (backtracking csp l σ).2 !! l' = Some a') ∧
  ∃ w, writes (backtracking csp l σ).2 = writes σ ++ w ∧
       Forall (λ l', length (heap σ) ≤ l')%nat (written w) ∧
       NoDup (written w).
Proof.
  pose proof (backtracking_fuel_extends csp (S (length (domains csp))) l σ) as He.
  fold (backtracking csp l σ) in He. split.
  - intros l' a'. by apply store_extends_lookup.
  - destruct He as [_ (w & Hw & HF & Hnd)]. exists w. split; [done|].
    split; [|done]. eapply Forall_impl; [exact HF|]. simpl. intros; lia.
Qed.

(** ** The instance *)

Lemma instance_assignment_enumerated (s : assignment) :
  instance_assignment s → s ∈ all_assignments instance_domains.
Proof.
  intros [Hc Hd]. apply all_assignments_spec; [apply csp_instance_wf|]. by split.
Qed.

Lemma brute_force_instance_assignment (s : assignment) :
  s ∈ brute_force csp_instance → instance_assignment s.
Proof.
  intros [_ H]%list_elem_of_filter.
  apply all_assignments_spec in H; [|apply csp_instance_wf]. exact H.
Qed.

(** [item_constraint] is only ever applied to ten values, where the closure
    raises no [IndexError]. *)
Lemma constraint_func_defined (i : nat) (vals : list Z) :
  (i < 5)%nat → length vals = 10%nat → is_Some (constraint_func i vals).
Proof.
  intros Hi Hlen.
  do 10 (destruct vals as [|? vals]; [done|]). destruct vals; [|done].
  do 5 (destruct i as [|i]; [by eexists|]). lia.
Qed.

Lemma brute_force_feasible : Forall wave_feasible (brute_force csp_instance).
Proof. apply (bool_decide_unpack _). by vm_compute. Qed.

Lemma objective_productivity :
  Forall (λ s, objective s = Ok (productivity s)) (all_assignments instance_domains).
Proof. apply (bool_decide_unpack _). by vm_compute. Qed.

Lemma productivity_lower_bound :
  Forall (λ s, Qle_bool (inject_Z (-1)) (productivity s) = true)
         (all_assignments instance_domains).
Proof. apply (bool_decide_unpack _). by vm_compute. Qed.

(** C3: every solution emitted for the script's instance collects between
    [LB = 5] and [UB = 12] units over its selected orders, and for every item
    0..4 the demand of the selected orders is at most the capacity of the
    selected corridors.  There are 309 such solutions. *)
Theorem instance_solutions_feasible :
  LB = 5 ∧ UB = 12 ∧
  ∃ L, (list_backtracking csp_instance initial_store).1 = Ok L ∧
       length L = 309%nat ∧ Forall wave_feasible L.
Proof.
  split; [done|]. split; [done|].
  destruct (list_backtracking_brute_force csp_instance csp_instance_wf
              csp_instance_scopes csp_instance_has_variables) as (L & HL & _ & Hin).
  exists L. split; [done|]. split.
  - change L with (outcome_default [] (Ok L)). rewrite <- HL. by vm_compute.
  - pose proof brute_force_feasible as HF. rewrite Forall_forall in HF |- *.
    intros s Hs. by apply HF, Hin.
Qed.

(** C4: on every complete 0/1 assignment of the instance, [objective] returns
    a value and raises nothing: the units of the selected orders divided by
    the number of corridors used when some corridor is used, and [-1] when
    none is; the value is never below [-1]. *)
Theorem objective_total (s : assignment) :
  instance_assignment s →
  objective s = Ok (productivity s) ∧
  ((0 < corridors_used s)%nat →
     productivity s
     = (inject_Z (collected_units s) / inject_Z (Z.of_nat (corridors_used s)))%Q) ∧
  (corridors_used s = 0%nat → productivity s = inject_Z (-1)) ∧
  (inject_Z (-1) <= productivity s)%Q.
Proof.
  intros Hs%instance_assignment_enumerated.
  pose proof objective_productivity as H1. pose proof productivity_lower_bound as H2.
  rewrite Forall_forall in H1, H2.
  split; [by apply H1|]. split; [|split].
  - intros Hpos. unfold productivity. rewrite decide_False by lia. done.
  - intros H0. unfold productivity. by rewrite decide_True.
  - by apply Qle_bool_iff, H2.
Qed.

Lemma objective_total_witness :
  let s : assignment := list_to_map ((λ v, (v, 1)) <$> all_variables) in
  instance_assignment s ∧ objective s = Ok (15 # 5)%Q.
Proof.
  intros s.
  assert (instance_assignment s) as Hs.
  { assert (s ∈ all_assignments instance_domains) as Hin
      by (apply (bool_decide_unpack _); vm_compute; exact I).
    apply all_assignments_spec in Hin; [exact Hin|].
    apply (bool_decide_unpack _). vm_compute. exact I. }
  split; [exact Hs|].
  destruct (objective_total s Hs) as [-> _]. vm_compute. reflexivity.
Defined.

(** ** The selection loop *)

Lemma objective_instance (s : assignment) :
  instance_assignment s →
  ∃ q, objective s = Ok q ∧ (inject_Z (-1) <= q)%Q.
Proof.
  intros Hs%instance_assignment_enumerated.
  pose proof objective_productivity as H1. pose proof productivity_lower_bound as H2.
  rewrite Forall_forall in H1, H2.
  exists (productivity s). split; [by apply H1|]. by apply Qle_bool_iff, H2.
Qed.

Lemma objective_le_trans (q q' : Q) (s : assignment) :
  (q <= q')%Q → objective_le q s → objective_le q' s.
Proof. intros Hq (p & Hp & Hle). exists p. split; [done|]. by eapply Qle_trans. Qed.

Lemma select_step_inv (done : list assignment) (sel : selection) (sol : assignment) :
  loop_inv done sel → instance_assignment sol →
  ∃ sel', select_step sel (Z.of_nat (length done) + 1) sol = Ok sel'
          ∧ loop_inv (done ++ [sol]) sel'.
Proof.
  intros (Hlow & Hnil & Hcons) Hsol.
  destruct (objective_instance sol Hsol) as (q & Hq & Hqlow).
  unfold select_step. rewrite Hq. simpl.
  assert (done ++ [sol] ≠ []) as Hne by (by destruct done).
  assert ((done ++ [sol]) !! length done = Some sol) as Hlast.
  { by rewrite lookup_app_r, Nat.sub_diag by lia. }
  destruct (Qle_bool (best_obj sel) q) eqn:Hcmp.
  - apply Qle_bool_iff in Hcmp. eexists. split; [done|].
    split; [done|]. split; [done|]. intros _. simpl. split; [|split].
    + exists sol. simpl. split; [done|]. split; [done|]. split; [lia|]. split.
      * by replace (Z.to_nat (Z.of_nat (length done) + 1 - 1)) with (length done) by lia.
      * apply Forall_app. split; [|repeat constructor; exists q; split; [done|apply Qle_refl]].
        destruct done as [|s0 done']; [constructor|].
        destruct Hcons as [(sol0 & _ & _ & _ & _ & HF) _]; [done|].
        eapply Forall_impl; [exact HF|]. intros s'. by apply objective_le_trans.
    + intros j s' Hj Hs'. simpl in Hj.
      apply lookup_lt_Some in Hs'. rewrite length_app in Hs'. simpl in Hs'. lia.
    + rewrite length_app. simpl. lia.
  - assert (q < best_obj sel)%Q as Hlt.
    { apply Qnot_le_lt. intros Hle. apply Qle_bool_iff in Hle. congruence. }
    destruct done as [|s0 done'].
    { rewrite (Hnil eq_refl) in Hlt. simpl in Hlt.
      exfalso. eapply Qlt_not_le; eauto. }
    destruct Hcons as ((sol' & Hb & Ho & H1 & Hidx & HF) & Hkeep & Hbound); [done|].
    exists sel. split; [done|]. split; [done|]. split; [done|]. intros _.
    split; [|split].
    + exists sol'. split; [done|]. split; [done|]. split; [done|]. split.
      * by apply lookup_app_l_Some.
      * apply Forall_app. split; [done|]. repeat constructor.
        exists q. split; [done|]. by apply Qlt_le_weak.
    + intros j s' Hj Hs'. apply lookup_app_Some in Hs' as [Hs'|[Hge Hs']].
      * exact (Hkeep j s' Hj Hs').
      * apply list_lookup_singleton_Some in Hs' as [_ <-]. by exists q.
    + rewrite length_app. lia.
Qed.

Lemma select_loop_inv (rest done : list assignment) (sel : selection) :
  Forall instance_assignment rest → loop_inv done sel →
  ∃ sel', select_loop sel (Z.of_nat (length done) + 1) rest = Ok sel'
          ∧ loop_inv (done ++ rest) sel'.
Proof.
  revert done sel. induction rest as [|sol rest IH]; intros done sel HF Hinv.
  - exists sel. by rewrite app_nil_r.
  - apply Forall_cons in HF as [Hsol HF].
    destruct (select_step_inv done sel sol Hinv Hsol) as (sel1 & Hstep & Hinv1).
    destruct (IH (done ++ [sol]) sel1 HF Hinv1) as (sel' & Hloop & Hinv').
    exists sel'. simpl. rewrite Hstep. simpl.
    rewrite length_app in Hloop. simpl in Hloop.
    replace (Z.of_nat (length done) + 1 + 1) with (Z.of_nat (length done + 1) + 1) by lia.
    by rewrite <- app_assoc in Hinv'.
Qed.

Lemma loop_inv_init : loop_inv [] selection_init.
Proof. split; [apply Qle_refl|]. by split. Qed.

Lemma select_best_inv (solutions : list assignment) :
  Forall instance_assignment solutions →
  ∃ sel, select_best solutions = Ok sel ∧ loop_inv solutions sel.
Proof.
  intros HF. exact (select_loop_inv solutions [] selection_init HF loop_inv_init).
Qed.

(** C10: on a non-empty list of complete 0/1 assignments the selection loop
    replaces its sentinel in the first iteration, because [objective] is at
    least [-1] and the comparison is [>=]; after the loop [best_solution] is
    an element of the list, [best_index] is its 1-based position, [best_obj]
    is its objective value, and no element has a larger objective. *)
Theorem select_best_replaces_sentinel (solutions : list assignment) :
  solutions ≠ [] → Forall instance_assignment solutions →
  (∃ s0 rest q0, solutions = s0 :: rest ∧ (inject_Z (-1) <= q0)%Q ∧
     select_step selection_init 1 s0 = Ok (Selection (Some s0) q0 1)) ∧
  ∃ sel, select_best solutions = Ok sel ∧ selects_maximal solutions sel.
Proof.
  intros Hne HF. split.
  - destruct solutions as [|s0 rest]; [done|].
    apply Forall_cons in HF as [Hs0 _].
    destruct (objective_instance s0 Hs0) as (q0 & Hq0 & Hlow).
    exists s0, rest, q0. split; [done|]. split; [done|].
    unfold select_step. rewrite Hq0. simpl.
    apply Qle_bool_iff in Hlow. by rewrite Hlow.
  - destruct (select_best_inv solutions HF) as (sel & Hsel & _ & _ & Hcons).
    exists sel. split; [done|]. by apply Hcons.
Qed.

Lemma select_best_replaces_sentinel_witness :
  let s : assignment := list_to_map ((λ v, (v, 1)) <$> all_variables) in
  [s] ≠ [] ∧ Forall instance_assignment [s] ∧
  ∃ sel, select_best [s] = Ok sel ∧ selects_maximal [s] sel.
Proof.
  intros s.
  assert (instance_assignment s) as Hs.
  { assert (s ∈ all_assignments instance_domains) as Hin
      by (apply (bool_decide_unpack _); vm_compute; exact I).
    apply all_assignments_spec in Hin; [exact Hin|].
    apply (bool_decide_unpack _). vm_compute. exact I. }
  assert ([s] ≠ []) as Hne by discriminate.
  assert (Forall instance_assignment [s]) as HF
    by exact (Forall_cons_2 _ _ _ Hs (Forall_nil_2 _)).
  split; [exact Hne|]. split; [exact HF|].
  exact (proj2 (select_best_replaces_sentinel [s] Hne HF)).
Defined.

(** C5 (as amended): on a non-empty list of complete 0/1 assignments the
    selection stage picks a solution whose objective value is maximal over the
    list, and when several solutions tie at the maximum it keeps the last one
    in enumeration order: every later solution has a strictly smaller
    objective. *)
Theorem select_best_keeps_last (solutions : list assignment) :
  solutions ≠ [] → Forall instance_assignment solutions →
  ∃ sel, select_best solutions = Ok sel ∧
         selects_maximal solutions sel ∧ keeps_last solutions sel.
Proof.
  intros Hne HF.
  destruct (select_best_inv solutions HF) as (sel & Hsel & _ & _ & Hcons).
  exists sel. split; [done|]. destruct (Hcons Hne) as (? & ? & _). by split.
Qed.

Lemma select_best_keeps_last_witness :
  let s : assignment := list_to_map ((λ v, (v, 1)) <$> all_variables) in
  [s; s] ≠ [] ∧ Forall instance_assignment [s; s] ∧
  ∃ sel, select_best [s; s] = Ok sel ∧
         selects_maximal [s; s] sel ∧ keeps_last [s; s] sel.
Proof.
  intros s.
  assert (instance_assignment s) as Hs.
  { assert (s ∈ all_assignments instance_domains) as Hin
      by (apply (bool_decide_unpack _); vm_compute; exact I).
    apply all_assignments_spec in Hin; [exact Hin|].
    apply (bool_decide_unpack _). vm_compute. exact I. }
  assert ([s; s] ≠ []) as Hne by discriminate.
  assert (Forall instance_assignment [s; s]) as HF
    by exact (Forall_cons_2 _ _ _ Hs (Forall_cons_2 _ _ _ Hs (Forall_nil_2 _))).
  split; [exact Hne|]. split; [exact HF|].
  exact (select_best_keeps_last [s; s] Hne HF).
Defined.

Lemma is_ok_default {A} (d : A) (o : outcome A) :
  is_ok o = true → o = Ok (outcome_default d o).
Proof. by destruct o. Qed.

(** C5 as stated fails on the script's own run: solutions 97 and 297 of the
    309 emitted tie at the maximal objective 5 (5 units over 1 corridor, 10
    units over 2), and the loop ends on solution 297, not on the first. *)
Lemma select_best_keeps_first_counterexample :
  ∃ L sel s97,
    (list_backtracking csp_instance initial_store).1 = Ok L ∧
    select_best L = Ok sel ∧
    best_index sel = 297 ∧ best_obj sel = (10 # 2)%Q ∧
    L !! 96%nat = Some s97 ∧ objective s97 = Ok (5 # 1)%Q ∧
    ¬ (selects_maximal L sel ∧ keeps_first L sel).
Proof.
  set (L := outcome_default [] (list_backtracking csp_instance initial_store).1).
  set (sel := outcome_default selection_init (select_best L)).
  set (s97 := default ∅ (L !! 96%nat)).
  assert (objective s97 = Ok (5 # 1)%Q) as Hobj by (vm_compute; reflexivity).
  assert (best_obj sel = (10 # 2)%Q) as Hbest by (vm_compute; reflexivity).
  assert (best_index sel = 297) as Hidx by (vm_compute; reflexivity).
  assert (L !! 96%nat = Some s97) as H97 by (vm_compute; reflexivity).
  exists L, sel, s97.
  split; [apply is_ok_default; vm_compute; reflexivity|].
  split; [apply is_ok_default; vm_compute; reflexivity|].
  split; [exact Hidx|]. split; [exact Hbest|].
  split; [exact H97|]. split; [exact Hobj|].
  intros [_ Hfirst].
  destruct (Hfirst 96%nat s97) as (q' & Hq' & Hlt).
  - rewrite Hidx. simpl. lia.
  - exact H97.
  - rewrite Hobj in Hq'. injection Hq' as <-. rewrite Hbest in Hlt.
    vm_compute in Hlt. discriminate.
Qed.

(** ** No feasible selection *)


(** * Further properties of the search *)

(** ** Termination *)

Lemma concat_outcomes_fuel {A B} (xs : list A) (body : A → outcome (list B)) :
  concat_outcomes xs body = OutOfFuel → ∃ x, x ∈ xs ∧ body x = OutOfFuel.
Proof.
  induction xs as [|x xs IH]; simpl; [done|].
  destruct (body x) as [ys|e|] eqn:Hx; simpl; [|done|].
  - destruct (concat_outcomes xs body) as [zs|e|]; simpl; [done..|].
    intros _. destruct IH as (y & Hy & Hb); [done|]. exists y. split; [by right|done].
  - intros _. exists x. split; [by left|done].
Qed.

Lemma filter_length_lt {A} (P Q : A → Prop) `{∀ x, Decision (P x)}
    `{∀ x, Decision (Q x)} (l : list A) (y : A) :
  (∀ x, Q x → P x) → y ∈ l → P y → ¬ Q y →
  (length (filter Q l) < length (filter P l))%nat.
Proof.
  intros HQP Hy HPy HQy.
  assert (∀ l', length (filter Q l') ≤ length (filter P l'))%nat as Hle.
  { induction l' as [|x l' IH]; [done|].
    rewrite !filter_cons. destruct (decide (Q x)) as [HQ|HQ].
    - rewrite decide_True by auto. simpl. lia.
    - destruct (decide (P x)); simpl; lia. }
  induction l as [|x l IH]; [by apply elem_of_nil in Hy|].
  rewrite !filter_cons. apply elem_of_cons in Hy as [<-|Hy].
  - destruct (decide (Q y)); [done|]. destruct (decide (P y)); [|done].
    simpl. specialize (Hle l). lia.
  - specialize (IH Hy). destruct (decide (Q x)) as [HQ|HQ].
    + rewrite decide_True by auto. simpl. lia.
    + destruct (decide (P x)); simpl; lia.
Qed.

(** Binding an unassigned variable leaves strictly fewer unassigned ones. *)
Lemma unassigned_insert_lt (csp : NaryCSP) (a : assignment) (var : string) (x : Z) :
  var ∈ unassigned_variables csp a →
  (length (unassigned_variables csp (<[var := x]> a))
   < length (unassigned_variables csp a))%nat.
Proof.
  intros [Hnone Hin]%list_elem_of_filter. unfold unassigned_variables.
  apply (filter_length_lt _ _ _ var); [|done|done|].
  - intros v. rewrite lookup_insert. by case_decide.
  - by rewrite lookup_insert_eq.
Qed.

Lemma solve_fuel_enough (csp : NaryCSP) (fuel : nat) (a : assignment) :
  (length (unassigned_variables csp a) < fuel)%nat →
  solve fuel csp a ≠ OutOfFuel.
Proof.
  revert a. induction fuel as [|fuel IH]; intros a Hfuel; [lia|].
  simpl. case_decide; [done|].
  destruct (py_min _ _) as [var|] eqn:Hmin; [|done].
  destruct (dict_get _ var) as [D|]; [|done].
  intros (x & _ & Hx)%concat_outcomes_fuel.
  destruct (consistent csp (<[var := x]> a)); [|done].
  revert Hx. apply IH.
  pose proof (unassigned_insert_lt csp a var x (py_min_elem_of _ _ _ Hmin)). lia.
Qed.

Lemma unassigned_length (csp : NaryCSP) (a : assignment) :
  (length (unassigned_variables csp a) ≤ length (domains csp))%nat.
Proof.
  unfold unassigned_variables, variables.
  etrans; [apply length_filter|]. by rewrite length_fmap.
Qed.

(** X1: [backtracking] terminates on every model, every reference and every
    store: each call binds one more variable, so the recursion never goes
    deeper than the number of variables, whatever keys the starting
    assignment holds. *)
Theorem backtracking_terminates (csp : NaryCSP) (l : loc) (σ : store) :
  (backtracking csp l σ).1 ≠ OutOfFuel ∧
  ∀ fuel, (length (domains csp) < fuel)%nat →
          (backtracking_fuel fuel csp l σ).1 ≠ OutOfFuel.
Proof.
  assert (∀ fuel, (length (domains csp) < fuel)%nat →
                  (backtracking_fuel fuel csp l σ).1 ≠ OutOfFuel) as H.
  { intros fuel Hfuel. destruct (heap σ !! l) as [a|] eqn:E.
    - destruct (backtracking_fuel_sim csp fuel l a σ E) as [_ Hr].
      pose proof (solve_fuel_enough csp fuel a) as Hs.
      pose proof (unassigned_length csp a).
      destruct (solve fuel csp a) as [sols|e|].
      + destruct Hr as (locs & -> & _). done.
      + by rewrite Hr.
      + destruct Hs; [lia|done].
    - destruct fuel; [lia|]. simpl. unfold mbind, Py_bind, deref. by rewrite E. }
  split; [|exact H]. apply H. lia.
Qed.

(** ** Starting from a caller's assignment *)

(** X2: called on a partial assignment of the model's variables,
    [backtracking] returns without raising; the dicts it yields hold, without
    repetition, exactly the complete assignments that extend the given one by
    domain values and pass the consistency check (the given assignment itself,
    when already complete, is yielded unchecked). *)
Theorem backtracking_completes_partial (csp : NaryCSP) (l : loc) (a : assignment)
    (σ : store) :
  dict_wf csp →
  heap σ !! l = Some a →
  (∀ v, is_Some (a !! v) → v ∈ variables csp) →
  ∃ locs L,
    (backtracking csp l σ).1 = Ok locs ∧
    Forall2 (λ l' s, heap (backtracking csp l σ).2 !! l' = Some s) locs L ∧
    NoDup L ∧
    ∀ s, s ∈ L ↔ solution_from csp a s.
Proof.
  intros Hwf Hl Hdom.
  destruct (solve_spec csp Hwf (S (length (domains csp))) a Hdom) as (L & HL & Hnd & Hin);
    [lia|].
  destruct (backtracking_fuel_sim csp (S (length (domains csp))) l a σ Hl) as [_ Hr].
  rewrite HL in Hr. destruct Hr as (locs & Hlocs & HF).
  exists locs, L. done.
Qed.

Lemma backtracking_completes_partial_witness :
  dict_wf ab_csp ∧
  heap partial_store !! 1%nat = Some (<["A" := 1]> ∅) ∧
  (∀ v, is_Some ((<["A" := 1]> ∅ : assignment) !! v) → v ∈ variables ab_csp) ∧
  ∃ locs L,
    (backtracking ab_csp 1%nat partial_store).1 = Ok locs ∧
    Forall2 (λ l' s, heap (backtracking ab_csp 1%nat partial_store).2 !! l' = Some s)
            locs L ∧
    NoDup L ∧
    ∀ s, s ∈ L ↔ solution_from ab_csp (<["A" := 1]> ∅) s.
Proof.
  assert (dict_wf ab_csp) as Hwf
    by (unfold dict_wf; apply (bool_decide_unpack _); vm_compute; exact I).
  assert (heap partial_store !! 1%nat = Some (<["A" := 1]> (∅ : assignment))) as Hl
    by reflexivity.
  assert (∀ v, is_Some ((<["A" := 1]> ∅ : assignment) !! v) → v ∈ variables ab_csp)
    as Hdom.
  { intros v. rewrite lookup_insert_is_Some, lookup_empty.
    intros [<-|[_ [? ?]]]; [|done]. by left. }
  split; [exact Hwf|]. split; [exact Hl|]. split; [exact Hdom|].
  exact (backtracking_completes_partial ab_csp 1%nat _ partial_store Hwf Hl Hdom).
Defined.

(** X3: when the starting assignment binds every variable of the model but
    its size differs from the number of variables (it holds keys the model
    does not declare), [backtracking] finds no unassigned variable and
    [min] raises [ValueError]; the store is left as it was. *)
Theorem backtracking_foreign_keys (csp : NaryCSP) (l : loc) (a : assignment)
    (σ : store) :
  heap σ !! l = Some a →
  (∀ v, v ∈ variables csp → is_Some (a !! v)) →
  size a ≠ length (domains csp) →
  backtracking csp l σ = (Raise ValueError, σ).
Proof.
  intros Hl Hall Hsz. unfold backtracking. simpl.
  rewrite (deref_run l a) by done. rewrite decide_False by done.
  assert (unassigned_variables csp a = []) as ->.
  { apply elem_of_nil_inv. intros v [Hnone Hv]%list_elem_of_filter.
    destruct (Hall v Hv) as [x Hx]. congruence. }
  done.
Qed.

Lemma backtracking_foreign_keys_witness :
  let a : assignment := <["A" := 0]> (<["B" := 0]> (<["Z" := 0]> ∅)) in
  heap foreign_store !! 1%nat = Some a ∧
  (∀ v, v ∈ variables ab_csp → is_Some (a !! v)) ∧
  size a ≠ length (domains ab_csp) ∧
  backtracking ab_csp 1%nat foreign_store = (Raise ValueError, foreign_store).
Proof.
  intros a.
  assert (heap foreign_store !! 1%nat = Some a) as Hl by reflexivity.
  assert (∀ v, v ∈ variables ab_csp → is_Some (a !! v)) as Hall.
  { intros v Hv. apply (bool_decide_unpack _).
    revert v Hv. apply Forall_forall. apply (bool_decide_unpack _). vm_compute. exact I. }
  assert (size a ≠ length (domains ab_csp)) as Hsz by (vm_compute; discriminate).
  split; [exact Hl|]. split; [exact Hall|]. split; [exact Hsz|].
  exact (backtracking_foreign_keys ab_csp 1%nat a foreign_store Hl Hall Hsz).
Defined.

(** ** The yielded references *)

Lemma fresh_yields_widen (σ σ1 σ2 σ3 : store) (locs : list loc) :
  (length (heap σ) ≤ length (heap σ1))%nat →
  (length (heap σ2) ≤ length (heap σ3))%nat →
  fresh_yields σ1 σ2 locs → fresh_yields σ σ3 locs.
Proof.
  intros H1 H2 [Hnd HF]. split; [done|].
  eapply Forall_impl; [exact HF|]. simpl. intros; lia.
Qed.

Lemma fresh_yields_app (σ σ1 σ2 : store) (ys zs : list loc) :
  (length (heap σ) ≤ length (heap σ1))%nat →
  (length (heap σ1) ≤ length (heap σ2))%nat →
  fresh_yields σ σ1 ys → fresh_yields σ1 σ2 zs → fresh_yields σ σ2 (ys ++ zs).
Proof.
  intros H1 H2 [Hnd1 HF1] [Hnd2 HF2]. rewrite Forall_forall in HF1, HF2. split.
  - apply NoDup_app. split; [done|]. split; [|done].
    intros l' Hy Hz. specialize (HF1 l' Hy). specialize (HF2 l' Hz). lia.
  - apply Forall_app. split; apply Forall_forall; intros l' Hl'.
    + specialize (HF1 l' Hl'). lia.
    + specialize (HF2 l' Hl'). lia.
Qed.

Lemma for_yield_fresh {A} (l : loc) (a : assignment) (xs : list A)
    (body : A → Py (list loc)) :
  (∀ x σ, heap σ !! l = Some a →
          store_extends σ (body x σ).2 ∧
          ∀ locs, (body x σ).1 = Ok locs → fresh_yields σ (body x σ).2 locs) →
  ∀ σ, heap σ !! l = Some a →
       store_extends σ (for_yield xs body σ).2 ∧
       ∀ locs, (for_yield xs body σ).1 = Ok locs →
               fresh_yields σ (for_yield xs body σ).2 locs.
Proof.
  intros Hbody. induction xs as [|x xs IH]; intros σ Hl; simpl.
  - split; [apply store_extends_refl|]. intros locs [= <-]. split; constructor.
  - rewrite Py_bind_run. destruct (Hbody x σ Hl) as [He Hf].
    destruct (body x σ) as [[ys|e|] σ1]; simpl in *; [|by split..].
    rewrite Py_bind_run.
    destruct (IH σ1) as [He2 Hf2]; [by eapply store_extends_lookup|].
    destruct (for_yield xs body σ1) as [[zs|e|] σ2]; simpl in *.
    + split; [by eapply store_extends_trans|]. intros locs [= <-].
      apply (fresh_yields_app σ σ1 σ2);
        [by apply store_extends_length|by apply store_extends_length
        |by apply Hf|by apply Hf2].
    + split; [by eapply store_extends_trans|done].
    + split; [by eapply store_extends_trans|done].
Qed.

Lemma backtracking_fuel_fresh (csp : NaryCSP) (fuel : nat) :
  ∀ (l : loc) (σ : store) (locs : list loc),
    (backtracking_fuel fuel csp l σ).1 = Ok locs →
    (locs = [l] ∧ ∃ a, heap σ !! l = Some a ∧ size a = length (domains csp)) ∨
    fresh_yields σ (backtracking_fuel fuel csp l σ).2 locs.
Proof.
  induction fuel as [|fuel IH]; intros l σ locs; [done|].
  destruct (heap σ !! l) as [a|] eqn:Hl.
  2:{ simpl. unfold mbind, Py_bind, deref. by rewrite Hl. }
  simpl. rewrite (deref_run l a) by done. case_decide as Hsz.
  { intros [= <-]. left. eauto. }
  destruct (py_min _ _) as [var|]; [|done].
  destruct (dict_get _ var) as [D|]; [|done].
  intros Hlocs. right. revert locs Hlocs.
  apply (for_yield_fresh l a); [|done].
  intros x σ' Hl'. rewrite (copy_setitem_run l a) by done.
  pose proof (copy_setitem_extends σ' (<[var := x]> a) var x) as He.
  set (σ1 := Store _ _) in *.
  assert (heap σ1 !! length (heap σ') = Some (<[var := x]> a)) as Hnew.
  { simpl. by rewrite lookup_app_r, Nat.sub_diag by lia. }
  rewrite (deref_run _ _ _ _ Hnew).
  assert (length (heap σ1) = S (length (heap σ'))) as Hlen.
  { simpl. rewrite length_app. simpl. lia. }
  destruct (consistent csp (<[var := x]> a)).
  - pose proof (backtracking_fuel_extends csp fuel (length (heap σ')) σ1) as He1.
    pose proof (store_extends_length _ _ He1) as Hle.
    split; [by eapply store_extends_trans|].
    intros locs Hlocs. destruct (IH _ _ _ Hlocs) as [[-> _]|Hf].
    + split; [apply NoDup_singleton|]. repeat constructor; lia.
    + eapply fresh_yields_widen; [| |exact Hf]; lia.
  - split; [done|]. intros locs [= <-]. split; constructor.
Qed.

(** X4: the dicts yielded by one call of [backtracking] are pairwise distinct
    objects.  Either the only yield is the argument itself, which then already
    has as many bindings as the model has variables, or every yielded dict was
    allocated during the call: no solution aliases the caller's dict, the
    shared default dict, any dict that existed before, or another solution. *)
Theorem backtracking_yields_fresh (csp : NaryCSP) (l : loc) (σ : store)
    (locs : list loc) :
  (backtracking csp l σ).1 = Ok locs →
  NoDup locs ∧
  ((locs = [l] ∧ ∃ a, heap σ !! l = Some a ∧ size a = length (domains csp)) ∨
   Forall (λ l', (length (heap σ) ≤ l' < length (heap (backtracking csp l σ).2))%nat)
          locs).
Proof.
  intros Hlocs.
  destruct (backtracking_fuel_fresh csp _ l σ locs Hlocs) as [[-> Ha]|[Hnd HF]].
  - split; [apply NoDup_singleton|]. by left.
  - split; [done|]. by right.
Qed.

Lemma backtracking_yields_fresh_witness :
  (backtracking ab_csp default_assignment initial_store).1 = Ok [3; 5]%nat ∧
  NoDup [3; 5]%nat ∧
  (([3; 5]%nat = [default_assignment] ∧
    ∃ a, heap initial_store !! default_assignment = Some a
         ∧ size a = length (domains ab_csp)) ∨
   Forall (λ l', (length (heap initial_store) ≤ l'
                  < length (heap (backtracking ab_csp default_assignment
                                    initial_store).2))%nat)
          [3; 5]%nat).
Proof.
  assert ((backtracking ab_csp default_assignment initial_store).1 = Ok [3; 5]%nat)
    as H by (vm_compute; reflexivity).
  split; [exact H|].
  exact (backtracking_yields_fresh ab_csp default_assignment initial_store _ H).
Defined.

(** * Further properties of the script *)

(** ** Missing keys *)

Lemma mapM_outcome_Ok {A B} (f : A → outcome B) (l : list A) :
  (∀ x, x ∈ l → ∃ y, f x = Ok y) → ∃ ys, mapM_outcome f l = Ok ys.
Proof.
  induction l as [|x l IH]; intros H; simpl; [by eexists|].
  destruct (H x) as [y ->]; [by left|].
  destruct IH as [ys ->]; [intros z Hz; apply H; by right|]. by eexists.
Qed.

Lemma mapM_outcome_Raise {A B} (f : A → outcome B) (l : list A) (e : exn) :
  (∀ x, x ∈ l → (∃ y, f x = Ok y) ∨ f x = Raise e) →
  (∃ x, x ∈ l ∧ f x = Raise e) →
  mapM_outcome f l = Raise e.
Proof.
  induction l as [|x l IH]; intros H (z & Hz & Hfz); [by apply elem_of_nil in Hz|].
  simpl. destruct (H x) as [[y Hy]|Hx]; [by left| |by rewrite Hx].
  rewrite Hy. simpl. rewrite IH; [done| |].
  - intros w Hw. apply H. by right.
  - apply elem_of_cons in Hz as [->|Hz]; [congruence|eauto].
Qed.

Lemma mapM_outcome_ext {A B} (f g : A → outcome B) (l : list A) :
  (∀ x, x ∈ l → f x = g x) → mapM_outcome f l = mapM_outcome g l.
Proof.
  induction l as [|x l IH]; intros H; simpl; [done|].
  rewrite (H x) by left. rewrite IH; [done|]. intros y Hy. apply H. by right.
Qed.

Lemma all_variables_elem_of (v : string) :
  v ∈ all_variables ↔
  (∃ o, (o < 5)%nat ∧ v = Pedido o) ∨ (∃ a, (a < 5)%nat ∧ v = Corredor a).
Proof.
  unfold all_variables, orders_variables.
  change (length orders) with 5%nat. change (length corridors) with 5%nat.
  rewrite elem_of_app, !list_elem_of_fmap. split.
  - intros [(o & -> & [_ Ho]%elem_of_seq)|(a & -> & [_ Ha]%elem_of_seq)];
      [left; exists o|right; exists a]; (split; [lia|done]).
  - intros [(o & Ho & ->)|(a & Ha & ->)]; [left; exists o|right; exists a];
      (split; [done|apply elem_of_seq; lia]).
Qed.

Lemma order_term_outcome (s : assignment) (o : nat) :
  (o < 5)%nat →
  match s !! Pedido o with
  | Some x => ∃ t, (t ← list_getitem order_totals o; x ← getitem s (Pedido o);
                    mret (t * x)) = Ok (t * x)
  | None => (t ← list_getitem order_totals o; x ← getitem s (Pedido o);
             mret (t * x)) = Raise KeyError
  end.
Proof.
  intros Ho. unfold list_getitem, getitem.
  destruct (order_totals !! o) as [t|] eqn:Et.
  - destruct (s !! Pedido o); simpl; eauto.
  - apply lookup_ge_None in Et. change (length order_totals) with 5%nat in Et. lia.
Qed.

Lemma total_units_of_outcome (s : assignment) :
  ((∀ o, (o < 5)%nat → is_Some (s !! Pedido o)) → ∃ t, total_units_of s = Ok t) ∧
  ((∃ o, (o < 5)%nat ∧ s !! Pedido o = None) → total_units_of s = Raise KeyError).
Proof.
  unfold total_units_of. change (length orders) with 5%nat. split.
  - intros Hall.
    match goal with
    | |- context [mapM_outcome ?f ?l] => destruct (mapM_outcome_Ok f l) as [ts ->]
    end; [|by eexists].
    intros o [_ Ho]%elem_of_seq. pose proof (order_term_outcome s o Ho) as H.
    destruct (Hall o Ho) as [x Hx]. rewrite Hx in H. destruct H as [t ->]. eauto.
  - intros (o & Ho & Hnone). rewrite (mapM_outcome_Raise _ _ KeyError); [done| |].
    + intros o' [_ Ho']%elem_of_seq. pose proof (order_term_outcome s o' Ho') as H.
      destruct (s !! Pedido o') as [z|];
        [left; destruct H as [t Ht]; exists (t * z); exact Ht|right; exact H].
    + exists o. split; [apply elem_of_seq; lia|].
      pose proof (order_term_outcome s o Ho) as H. by rewrite Hnone in H.
Qed.

Lemma num_corridors_of_outcome (s : assignment) :
  ((∀ a, (a < 5)%nat → is_Some (s !! Corredor a)) → ∃ n, num_corridors_of s = Ok n) ∧
  ((∃ a, (a < 5)%nat ∧ s !! Corredor a = None) → num_corridors_of s = Raise KeyError).
Proof.
  unfold num_corridors_of, getitem. change (length corridors) with 5%nat. split.
  - intros Hall.
    match goal with
    | |- context [mapM_outcome ?f ?l] => destruct (mapM_outcome_Ok f l) as [ts ->]
    end; [|by eexists].
    intros a [_ Ha]%elem_of_seq. destruct (Hall a Ha) as [x ->]. eauto.
  - intros (a & Ha & Hnone). rewrite (mapM_outcome_Raise _ _ KeyError); [done| |].
    + intros a' _. destruct (s !! Corredor a'); eauto.
    + exists a. split; [apply elem_of_seq; lia|]. by rewrite Hnone.
Qed.

Lemma mapM_outcome_fmap {A B} (f : A → outcome B) (g : A → B) (l : list A) :
  (∀ x, x ∈ l → f x = Ok (g x)) → mapM_outcome f l = Ok (g <$> l).
Proof.
  induction l as [|x l IH]; intros H; simpl; [done|].
  rewrite (H x) by left. simpl. rewrite IH; [done|]. intros y Hy. apply H. by right.
Qed.

(** X5: [objective] raises [KeyError] as soon as one of the ten order and
    corridor keys is missing, whatever integers the other keys are bound to;
    when all ten are bound and the corridor values sum to zero or less, it
    returns [-1] without dividing. *)
Theorem objective_missing_key (s : assignment) :
  ((∃ v, v ∈ all_variables ∧ s !! v = None) → objective s = Raise KeyError) ∧
  ((∀ v, v ∈ all_variables → is_Some (s !! v)) →
   py_sum ((λ a, default 0 (s !! Corredor a)) <$> seq 0 5) ≤ 0 →
   objective s = Ok (inject_Z (-1))).
Proof.
  destruct (total_units_of_outcome s) as [Ht1 Ht2].
  destruct (num_corridors_of_outcome s) as [Hn1 Hn2].
  split.
  - unfold objective. intros (v & Hv & Hnone).
    destruct (decide (Exists (λ o, s !! Pedido o = None) (seq 0 5))) as [Hex|Hnex].
    + apply Exists_exists in Hex as (o & [_ Ho]%elem_of_seq & Ho').
      rewrite Ht2; [done|]. exists o. split; [lia|done].
    + destruct Ht1 as [t ->].
      { intros o Ho. destruct (s !! Pedido o) eqn:E; [eauto|].
        destruct Hnex. apply Exists_exists. exists o. split; [|done].
        apply elem_of_seq. lia. }
      simpl. rewrite Hn2; [done|].
      apply all_variables_elem_of in Hv as [(o & Ho & ->)|(a & Ha & ->)]; [|eauto].
      destruct Hnex. apply Exists_exists. exists o. split; [|done].
      apply elem_of_seq. lia.
  - intros Hall Hsum. unfold objective.
    destruct Ht1 as [t ->].
    { intros o Ho. apply Hall, all_variables_elem_of. left. eauto. }
    unfold num_corridors_of. change (length corridors) with 5%nat.
    rewrite (mapM_outcome_fmap _ (λ a, default 0 (s !! Corredor a))).
    2:{ intros a [_ Ha]%elem_of_seq. unfold getitem.
        destruct (Hall (Corredor a)) as [x ->]; [|done].
        apply all_variables_elem_of. right. exists a. split; [lia|done]. }
    apply Z.ltb_ge in Hsum.
    cbn [mbind outcome_bind mret outcome_ret]. by rewrite Hsum.
Qed.

(** X6: [objective] reads the ten order and corridor keys and nothing else:
    two solutions that agree on them get the same result, whatever other keys
    they hold. *)
Theorem objective_reads_variables_only (s s' : assignment) :
  (∀ v, v ∈ all_variables → s !! v = s' !! v) →
  objective s = objective s'.
Proof.
  intros Heq. unfold objective, total_units_of, num_corridors_of.
  change (length orders) with 5%nat. change (length corridors) with 5%nat.
  rewrite (mapM_outcome_ext
             (λ o, t ← list_getitem order_totals o;
                   x ← getitem s (Pedido o); mret (t * x))
             (λ o, t ← list_getitem order_totals o;
                   x ← getitem s' (Pedido o); mret (t * x))).
  2:{ intros o [_ Ho]%elem_of_seq. unfold getitem. rewrite Heq; [done|].
      apply all_variables_elem_of. left. exists o. split; [lia|done]. }
  rewrite (mapM_outcome_ext (λ a, getitem s (Corredor a))
                            (λ a, getitem s' (Corredor a))).
  2:{ intros a [_ Ha]%elem_of_seq. unfold getitem. rewrite Heq; [done|].
      apply all_variables_elem_of. right. exists a. split; [lia|done]. }
  done.
Qed.

Lemma objective_reads_variables_only_witness :
  let s : assignment := list_to_map ((λ v, (v, 1)) <$> all_variables) in
  (∀ v, v ∈ all_variables → s !! v = (<["extra" := 7]> s) !! v) ∧
  objective s = objective (<["extra" := 7]> s).
Proof.
  intros s.
  assert (∀ v, v ∈ all_variables → s !! v = (<["extra" := 7]> s) !! v) as H.
  { intros v Hv. rewrite lookup_insert_ne; [done|]. intros <-.
    revert Hv. apply (bool_decide_unpack _). vm_compute. exact I. }
  split; [exact H|].
  exact (objective_reads_variables_only s (<["extra" := 7]> s) H).
Defined.

(** ** Printing the waves *)

Lemma print_solution_index (s : assignment) (idx : Z) :
  print_solution (Some s) 0 = Ok (report_of s 0) →
  print_solution (Some s) idx = Ok (report_of s idx).
Proof.
  unfold print_solution, report_of, objective_of.
  generalize (selected_names (Some s) Pedido (seq 0 (length orders))).
  generalize (selected_names (Some s) Corredor (seq 0 (length corridors))).
  generalize (mapM_outcome (λ o, t ← list_getitem order_totals o;
                                 x ← subscript (Some s) (Pedido o); mret (t * x))
                           (seq 0 (length orders))).
  generalize (mapM_outcome (λ a, subscript (Some s) (Corredor a))
                           (seq 0 (length corridors))).
  generalize (objective s).
  intros o5 o4 o3 o2 o1.
  destruct o1, o2, o3, o4, o5; simpl; try done.
  intros [= -> -> -> -> ->]. done.
Qed.

Lemma print_solution_zero :
  Forall (λ s, print_solution (Some s) 0 = Ok (report_of s 0))
         (all_assignments instance_domains).
Proof. apply (bool_decide_unpack _). by vm_compute. Qed.

Lemma print_solution_instance (s : assignment) (idx : Z) :
  instance_assignment s → print_solution (Some s) idx = Ok (report_of s idx).
Proof.
  intros Hs%instance_assignment_enumerated. apply print_solution_index.
  pose proof print_solution_zero as H. rewrite Forall_forall in H. by apply H.
Qed.

Lemma objective_instance_productivity (s : assignment) :
  instance_assignment s → objective s = Ok (productivity s).
Proof.
  intros Hs%instance_assignment_enumerated.
  pose proof objective_productivity as H. rewrite Forall_forall in H. by apply H.
Qed.

(** X7: for a complete 0/1 assignment and any index, [print_solution] raises
    nothing, and the values it computes before formatting them are: the list
    [orders_selected] of the names of the orders bound to 1, in index order,
    the list [corridors_selected] likewise, [total_units] the units of the
    selected orders, and [num_corridors] the number of selected corridors. *)
Theorem print_solution_report (s : assignment) (idx : Z) :
  instance_assignment s →
  ∃ r, print_solution (Some s) idx = Ok r ∧
       wave_index r = idx ∧
       orders_selected r = Pedido <$> selected_orders s ∧
       corridors_selected r = Corredor <$> selected_corridors s ∧
       wave_total_units r = collected_units s ∧
       wave_num_corridors r = Z.of_nat (corridors_used s).
Proof.
  intros Hs. exists (report_of s idx).
  split; [by apply print_solution_instance|]. done.
Qed.

Lemma print_solution_report_witness :
  let s : assignment := list_to_map ((λ v, (v, 1)) <$> all_variables) in
  instance_assignment s ∧
  ∃ r, print_solution (Some s) 7 = Ok r ∧
       wave_index r = 7 ∧
       orders_selected r = Pedido <$> selected_orders s ∧
       corridors_selected r = Corredor <$> selected_corridors s ∧
       wave_total_units r = collected_units s ∧
       wave_num_corridors r = Z.of_nat (corridors_used s).
Proof.
  intros s.
  assert (instance_assignment s) as Hs.
  { assert (s ∈ all_assignments instance_domains) as Hin
      by (apply (bool_decide_unpack _); vm_compute; exact I).
    apply all_assignments_spec in Hin; [exact Hin|].
    apply (bool_decide_unpack _). vm_compute. exact I. }
  split; [exact Hs|].
  exact (print_solution_report s 7 Hs).
Defined.

Lemma print_all_instance (solutions : list assignment) (idx : Z) :
  Forall instance_assignment solutions →
  print_all idx solutions
  = Ok (imap (λ i s, report_of s (idx + Z.of_nat i)) solutions).
Proof.
  revert idx. induction solutions as [|s rest IH]; intros idx HF; [done|].
  apply Forall_cons in HF as [Hs HF]. simpl.
  rewrite (print_solution_instance s idx Hs). simpl. rewrite (IH _ HF). simpl.
  rewrite Z.add_0_r. do 2 f_equal.
  apply imap_ext. intros i s' _. simpl. f_equal. lia.
Qed.

(** X8: the loop that prints all feasible waves raises nothing on complete
    0/1 assignments: it prints one report per solution, in the order of the
    list, numbered from 1. *)
Theorem print_all_numbers_waves (solutions : list assignment) :
  Forall instance_assignment solutions →
  ∃ waves, print_all 1 solutions = Ok waves ∧
           length waves = length solutions ∧
           ∀ i s, solutions !! i = Some s →
                  waves !! i = Some (report_of s (Z.of_nat i + 1)).
Proof.
  intros HF. eexists. split; [by apply print_all_instance|].
  split; [by rewrite length_imap|].
  intros i s Hi. rewrite list_lookup_imap, Hi. simpl. f_equal. f_equal. lia.
Qed.

Lemma print_all_numbers_waves_witness :
  let s : assignment := list_to_map ((λ v, (v, 1)) <$> all_variables) in
  Forall instance_assignment [s; s] ∧
  ∃ waves, print_all 1 [s; s] = Ok waves ∧
           length waves = length [s; s] ∧
           ∀ i s', [s; s] !! i = Some s' →
                   waves !! i = Some (report_of s' (Z.of_nat i + 1)).
Proof.
  intros s.
  assert (instance_assignment s) as Hs.
  { assert (s ∈ all_assignments instance_domains) as Hin
      by (apply (bool_decide_unpack _); vm_compute; exact I).
    apply all_assignments_spec in Hin; [exact Hin|].
    apply (bool_decide_unpack _). vm_compute. exact I. }
  assert (Forall instance_assignment [s; s]) as HF
    by exact (Forall_cons_2 _ _ _ Hs (Forall_cons_2 _ _ _ Hs (Forall_nil_2 _))).
  split; [exact HF|].
  exact (print_all_numbers_waves [s; s] HF).
Defined.

(** ** The script as a whole *)

Lemma enumerated_instance_assignment (s : assignment) :
  s ∈ all_assignments instance_domains → instance_assignment s.
Proof.
  intros H. apply all_assignments_spec in H; [|apply csp_instance_wf]. exact H.
Qed.

(** X9: for any constraint model over the script's ten binary variables, the
    script raises [TypeError] when the model has no solution, and otherwise
    ends by printing a solution of the model whose productivity is maximal
    among all solutions of the model, under an index between 1 and the number
    of solutions. *)
Theorem script_reports_optimum (csp : NaryCSP) :
  domains csp = instance_domains → scopes_declared csp →
  (brute_force csp = [] → script csp = Raise TypeError) ∧
  (brute_force csp ≠ [] →
   ∃ waves sol idx,
     script csp = Ok (waves, report_of sol idx) ∧
     sol ∈ brute_force csp ∧
     1 ≤ idx ≤ Z.of_nat (length waves) ∧
     ∀ s, s ∈ brute_force csp → (productivity s <= productivity sol)%Q).
Proof.
  intros Hdom Hsc.
  assert (dict_wf csp) as Hwf.
  { unfold dict_wf, variables. rewrite Hdom. apply csp_instance_wf. }
  assert (variables csp ≠ [] ∨ consistent csp ∅ = true) as Hroot.
  { left. unfold variables. rewrite Hdom. by vm_compute. }
  destruct (list_backtracking_brute_force csp Hwf Hsc Hroot) as (L & HL & _ & Hin).
  assert (Forall instance_assignment L) as HF.
  { apply Forall_forall. intros s [_ Hs]%Hin%list_elem_of_filter.
    rewrite Hdom in Hs. by apply enumerated_instance_assignment. }
  unfold script. rewrite HL. simpl.
  rewrite (print_all_instance L 1 HF). simpl.
  destruct (select_best_inv L HF) as (sel & Hsel & _ & Hnil & Hcons).
  unfold report_best. rewrite Hsel. simpl. split.
  - intros Hbf. assert (L = []) as ->.
    { apply elem_of_nil_inv. intros s Hs%Hin. rewrite Hbf in Hs.
      by apply elem_of_nil in Hs. }
    by rewrite (Hnil eq_refl).
  - intros Hbf. assert (L ≠ []) as HLne.
    { intros ->. destruct (brute_force csp) as [|s l] eqn:E; [done|].
      assert (s ∈ @nil assignment) as ?%elem_of_nil by (apply Hin; left). done. }
    destruct (Hcons HLne) as ((sol & Hb & Hobj & H1 & Hidx & Hmax) & _ & Hbound).
    assert (sol ∈ L) as HsolL by (by eapply list_elem_of_lookup_2).
    assert (instance_assignment sol) as Hsol by (by eapply Forall_forall in HF).
    rewrite Hb, (print_solution_instance sol _ Hsol). simpl.
    exists (imap (λ i s, report_of s (1 + Z.of_nat i)) L), sol, (best_index sel).
    split; [done|]. split; [by apply Hin|]. split; [rewrite length_imap; lia|].
    intros s Hs%Hin. rewrite Forall_forall in Hmax, HF.
    destruct (Hmax s Hs) as (q' & Hq' & Hle).
    rewrite (objective_instance_productivity s (HF s Hs)) in Hq'.
    rewrite (objective_instance_productivity sol Hsol) in Hobj.
    injection Hq' as <-. injection Hobj as Hobj. by rewrite Hobj.
Qed.

Lemma script_reports_optimum_witness :
  domains csp_instance = instance_domains ∧ scopes_declared csp_instance ∧
  (brute_force csp_instance = [] → script csp_instance = Raise TypeError) ∧
  (brute_force csp_instance ≠ [] →
   ∃ waves sol idx,
     script csp_instance = Ok (waves, report_of sol idx) ∧
     sol ∈ brute_force csp_instance ∧
     1 ≤ idx ≤ Z.of_nat (length waves) ∧
     ∀ s, s ∈ brute_force csp_instance → (productivity s <= productivity sol)%Q).
Proof.
  assert (domains csp_instance = instance_domains) as Hdom by reflexivity.
  assert (scopes_declared csp_instance) as Hsc
    by (apply scopes_declared_check; vm_compute; reflexivity).
  split; [exact Hdom|]. split; [exact Hsc|].
  exact (script_reports_optimum csp_instance Hdom Hsc).
Defined.

(** * Further properties of the constraints *)

(** X10: [total_demand_constraint] pairs the order totals with the values it
    is given by [zip]: only the first five values count, and a missing value
    counts as 0 (order not selected); no number of arguments makes it raise. *)
Theorem total_demand_constraint_zip (vals : list Z) :
  total_demand_constraint vals
  = total_demand_constraint (take 5 (vals ++ replicate 5 0)).
Proof.
  unfold total_demand_constraint. change order_totals with [4; 2; 3; 5; 1].
  assert (py_sum ((λ tv, tv.1 * tv.2) <$> zip [4; 2; 3; 5; 1] vals)
          = py_sum ((λ tv, tv.1 * tv.2)
                      <$> zip [4; 2; 3; 5; 1] (take 5 (vals ++ replicate 5 0)))) as ->;
    [|done].
  do 5 (destruct vals as [|? vals];
        [cbn -[Z.mul Z.add]; lia|]).
  cbn -[Z.mul Z.add]. lia.
Qed.

(** X11: the closure of [item_constraint_factory(i)], for an item index
    [i < 5], raises [IndexError] exactly when it is given fewer than ten
    values, and ignores any value after the tenth; for an item index outside
    the matrices ([i >= 5]) it raises on every input. *)
Theorem constraint_func_index_error (i : nat) (vals : list Z) :
  ((i < 5)%nat →
     (constraint_func i vals = None ↔ (length vals < 10)%nat) ∧
     constraint_func i vals = constraint_func i (take 10 vals)) ∧
  ((5 ≤ i)%nat → constraint_func i vals = None).
Proof.
  split.
  - intros Hi.
    do 5 (destruct i as [|i];
          [do 10 (destruct vals as [|? vals];
                  [split; [split; [intros _; simpl; lia|by intros _]|done]|]);
           split; [split; [by intros ?|simpl; lia]|done]|]).
    lia.
  - intros Hi. do 5 (destruct i as [|i]; [lia|]).
    unfold constraint_func. done.
Qed.

(** X12: an item constraint that holds keeps holding when corridor values
    grow and order values shrink (more corridors used, fewer orders selected),
    for any integer values: every matrix entry counts as a non-negative
    weight. *)
Theorem item_constraint_monotone (i : nat) (os os' cs cs' : list Z) :
  (i < 5)%nat → length os = 5%nat → length cs = 5%nat →
  Forall2 Z.le os' os → Forall2 Z.le cs cs' →
  item_constraint i (os ++ cs) = true →
  item_constraint i (os' ++ cs') = true.
Proof.
  intros Hi Hos Hcs Ho Hc.
  do 5 (destruct os as [|? os]; [done|]). destruct os; [|done].
  do 5 (destruct cs as [|? cs]; [done|]). destruct cs; [|done].
  repeat match goal with
  | H : Forall2 _ _ (_ :: _) |- _ =>
      apply Forall2_cons_inv_r in H as (? & ? & ? & H & ->)
  | H : Forall2 _ _ [] |- _ => apply Forall2_nil_inv_r in H as ->
  | H : Forall2 _ (_ :: _) _ |- _ =>
      apply Forall2_cons_inv_l in H as (? & ? & ? & H & ->)
  | H : Forall2 _ [] _ |- _ => apply Forall2_nil_inv_l in H as ->
  end.
  unfold item_constraint, constraint_func.
  do 5 (destruct i as [|i];
        [cbn -[Z.mul Z.add Z.leb]; rewrite !Z.leb_le; lia|]).
  lia.
Qed.

Lemma item_constraint_monotone_witness :
  (2 < 5)%nat ∧ length [1; 0; 1; 0; 0] = 5%nat ∧ length [0; 1; 0; 0; 0] = 5%nat ∧
  Forall2 Z.le [0; 0; 1; 0; 0] [1; 0; 1; 0; 0] ∧
  Forall2 Z.le [0; 1; 0; 0; 0] [0; 1; 0; 0; 1] ∧
  item_constraint 2 ([1; 0; 1; 0; 0] ++ [0; 1; 0; 0; 0]) = true ∧
  item_constraint 2 ([0; 0; 1; 0; 0] ++ [0; 1; 0; 0; 1]) = true.
Proof.
  assert (2 < 5)%nat as H1 by lia.
  assert (length [1; 0; 1; 0; 0] = 5%nat) as H2 by reflexivity.
  assert (length [0; 1; 0; 0; 0] = 5%nat) as H3 by reflexivity.
  assert (Forall2 Z.le [0; 0; 1; 0; 0] [1; 0; 1; 0; 0]) as H4
    by (repeat constructor; lia).
  assert (Forall2 Z.le [0; 1; 0; 0; 0] [0; 1; 0; 0; 1]) as H5
    by (repeat constructor; lia).
  assert (item_constraint 2 ([1; 0; 1; 0; 0] ++ [0; 1; 0; 0; 0]) = true) as H6
    by reflexivity.
  repeat (split; [assumption|]).
  exact (item_constraint_monotone 2 _ _ _ _ H1 H2 H3 H4 H5 H6).
Defined.

(** X13: the key scheme [f"Pedido{o + 1}"] / [f"Corredor{a + 1}"] never makes
    two variables collide: different order indices give different keys,
    different corridor indices give different keys, and no order key is a
    corridor key, for indices of any size. *)
Theorem variable_names_distinct :
  (∀ o o', Pedido o = Pedido o' → o = o') ∧
  (∀ a a', Corredor a = Corredor a' → a = a') ∧
  (∀ o a, Pedido o ≠ Corredor a).
Proof.
  split; [|split].
  - intros o o' H. unfold Pedido in H.
    apply (inj (String.app "Pedido")) in H. apply (inj pretty) in H. lia.
  - intros a a' H. unfold Corredor in H.
    apply (inj (String.app "Corredor")) in H. apply (inj pretty) in H. lia.
  - intros o a. unfold Pedido, Corredor.
    generalize (pretty (o + 1)%nat) (pretty (a + 1)%nat). intros s1 s2 H.
    discriminate H.
Qed.

(** * No feasible selection *)



